(** * find_emojis.py: emoji scanner for a source tree

    A shallow embedding of [src/find_emojis.py] and the properties its
    specification states about it.

    Conventions of the embedding:
    - a Python [str] holding text is the list of its Unicode code points
      ([list Z]); a character [char] is the code point [ord(char)];
    - string positions and lengths are [nat]; the nesting counter of the
      console-call scan is a Python [int], here [Z];
    - path components are [string]s, a [pathlib.Path] is the list of its
      [parts];
    - the [results] dict of [scan_directory] is a [gmap string _]. *)

From Stdlib Require Import ZArith Lia ZifyBool Bool List String Ascii Sorted.
From stdpp Require Import gmap strings list fin_maps.
Import ListNotations.

Local Open Scope Z_scope.

(** ** Emoji classifier *)

(** [code in [...]] for a Python list of integers. *)
Definition code_in (code : Z) (l : list Z) : bool := existsb (Z.eqb code) l.

(** First literal list of [is_emoji] (source lines 38-78). *)
Definition common_symbols : list Z :=
  [ 0x2764; 0x2665; 0x2666; 0x2660; 0x2663; 0x2668; 0x267F; 0x2693;
    0x26A0; 0x26A1; 0x26AA; 0x26AB; 0x26BD; 0x26BE; 0x26C4; 0x26C5;
    0x26CE; 0x26D4; 0x26EA; 0x26F2; 0x26F3; 0x26F5; 0x26FA; 0x26FD;
    0x2705; 0x270A; 0x270B; 0x2728; 0x274C; 0x274E; 0x2753; 0x2754;
    0x2755; 0x2757; 0x2795; 0x2796; 0x2797; 0x27B0; 0x27BF ].

(** Second literal list of [is_emoji] (source line 85). *)
Definition math_symbols : list Z := [ 0x2716; 0x2714; 0x2611; 0x2B50 ].

(** [is_emoji(char)], on [code = ord(char)]. *)
Definition is_emoji (code : Z) : bool :=
  ((0x1F600 <=? code) && (code <=? 0x1F64F))
  || ((0x1F300 <=? code) && (code <=? 0x1F5FF))
  || ((0x1F680 <=? code) && (code <=? 0x1F6FF))
  || ((0x2600 <=? code) && (code <=? 0x26FF))
  || ((0x2700 <=? code) && (code <=? 0x27BF))
  || ((0x1F900 <=? code) && (code <=? 0x1F9FF))
  || ((0x1FA70 <=? code) && (code <=? 0x1FAFF))
  || ((0x1F000 <=? code) && (code <=? 0x1F02F))
  || code_in code common_symbols
  || ((0x2190 <=? code) && (code <=? 0x21FF))
  || code_in code math_symbols.

(** The nine inclusive ranges the specification lists, as a proposition. *)
Definition in_listed_ranges (c : Z) : Prop :=
  0x1F600 <= c <= 0x1F64F \/ 0x1F300 <= c <= 0x1F5FF \/
  0x1F680 <= c <= 0x1F6FF \/ 0x2600 <= c <= 0x26FF \/
  0x2700 <= c <= 0x27BF \/ 0x1F900 <= c <= 0x1F9FF \/
  0x1FA70 <= c <= 0x1FAFF \/ 0x1F000 <= c <= 0x1F02F \/
  0x2190 <= c <= 0x21FF.

(** The exact-match set of the specification (section 4.1), in its order. *)
Definition spec_exact_set : list Z :=
  [ 0x2764; 0x2665; 0x2666; 0x2660; 0x2663; 0x2668; 0x267F; 0x2693;
    0x26A0; 0x26A1; 0x26AA; 0x26AB; 0x26BD; 0x26BE; 0x26C4; 0x26C5;
    0x26CE; 0x26D4; 0x26EA; 0x26F2; 0x26F3; 0x26F5; 0x26FA; 0x26FD;
    0x2705; 0x270A; 0x270B; 0x2728; 0x274C; 0x274E; 0x2753; 0x2754;
    0x2755; 0x2757; 0x2795; 0x2796; 0x2797; 0x27B0; 0x27BF; 0x2716;
    0x2714; 0x2611; 0x2B50 ].

(** The simpler predicate: the nine ranges, or the single code point
    U+2B50. *)
Definition is_emoji_simple (code : Z) : bool :=
  ((0x1F600 <=? code) && (code <=? 0x1F64F))
  || ((0x1F300 <=? code) && (code <=? 0x1F5FF))
  || ((0x1F680 <=? code) && (code <=? 0x1F6FF))
  || ((0x2600 <=? code) && (code <=? 0x26FF))
  || ((0x2700 <=? code) && (code <=? 0x27BF))
  || ((0x1F900 <=? code) && (code <=? 0x1F9FF))
  || ((0x1FA70 <=? code) && (code <=? 0x1FAFF))
  || ((0x1F000 <=? code) && (code <=? 0x1F02F))
  || ((0x2190 <=? code) && (code <=? 0x21FF))
  || (code =? 0x2B50).

(** ASCII letters and digits. *)
Definition ascii_alnum (c : Z) : Prop :=
  0x30 <= c <= 0x39 \/ 0x41 <= c <= 0x5A \/ 0x61 <= c <= 0x7A.

(** ** Text as code points *)

(** The code points of an ASCII literal (used to write patterns and test
    lines; every character of such a literal is its own code point). *)
Definition codes (s : string) : list Z :=
  map (fun a => Z.of_N (N_of_ascii a)) (list_ascii_of_string s).

(** [str.isspace] for one character, which is also what [\s] matches in a
    [str] pattern: CPython's table of Unicode whitespace. *)
Definition isspace (c : Z) : bool :=
  ((0x09 <=? c) && (c <=? 0x0D)) || ((0x1C <=? c) && (c <=? 0x20))
  || (c =? 0x85) || (c =? 0xA0) || (c =? 0x1680)
  || ((0x2000 <=? c) && (c <=? 0x200A))
  || (c =? 0x2028) || (c =? 0x2029) || (c =? 0x202F) || (c =? 0x205F)
  || (c =? 0x3000).

Fixpoint lstrip (l : list Z) : list Z :=
  match l with
  | c :: t => if isspace c then lstrip t else l
  | [] => []
  end.

Definition rstrip (l : list Z) : list Z := rev (lstrip (rev l)).

(** [s.strip()] *)
Definition strip (l : list Z) : list Z := rstrip (lstrip l).

(** [s.startswith(prefix)] *)
Fixpoint startswith (l prefix : list Z) : bool :=
  match prefix, l with
  | [], _ => true
  | p :: prefix', c :: l' => (c =? p) && startswith l' prefix'
  | _ :: _, [] => false
  end.

(** [content.split("\n")]: never empty, a trailing newline gives a last
    empty line. *)
Fixpoint split_lines (content : list Z) : list (list Z) :=
  match content with
  | [] => [[]]
  | c :: t =>
      if c =? 0x0A then [] :: split_lines t
      else match split_lines t with
           | cur :: rest => (c :: cur) :: rest
           | [] => [[c]]
           end
  end.

(** [line[start:end]] for [0 <= start], [0 <= end]. *)
Definition slice (line : list Z) (start end_ : nat) : list Z :=
  firstn (end_ - start) (skipn start line).

(** ** The console pattern and [re.finditer] *)

(** The fragment of regular expressions [console_pattern] is written in. *)
Inductive regex : Type :=
  | Eps : regex
  | Lit : Z -> regex
  | Seq : regex -> regex -> regex
  | Alt : regex -> regex -> regex
  | StarClass : (Z -> bool) -> regex.

(** Greedy [cls*] with backtracking: take as many as possible, give one back
    each time the continuation fails. *)
Fixpoint star_match {A} (p : Z -> bool) (l : list Z)
    (k : list Z -> option A) : option A :=
  match l with
  | c :: t =>
      if p c then
        match star_match p t k with
        | Some r => Some r
        | None => k l
        end
      else k l
  | [] => k l
  end.

(** Backtracking matcher anchored at the head of [l]; [k] receives the
    input left after the match. Alternatives are tried left to right. *)
Fixpoint re_match {A} (r : regex) (l : list Z)
    (k : list Z -> option A) : option A :=
  match r with
  | Eps => k l
  | Lit c =>
      match l with
      | x :: t => if x =? c then k t else None
      | [] => None
      end
  | Seq a b => re_match a l (fun l' => re_match b l' k)
  | Alt a b =>
      match re_match a l k with
      | Some res => Some res
      | None => re_match b l k
      end
  | StarClass p => star_match p l k
  end.

Definition word (s : string) : regex :=
  fold_right (fun c r => Seq (Lit c) r) Eps (codes s).

Definition ws : regex := StarClass isspace.

(** [r"console\s*\.\s*(log|warn|error|info|debug)\s*\("] *)
Definition console_pattern : regex :=
  Seq (word "console") (Seq ws (Seq (Lit 0x2E) (Seq ws
    (Seq (Alt (word "log") (Alt (word "warn") (Alt (word "error")
            (Alt (word "info") (word "debug")))))
      (Seq ws (Lit 0x28)))))).

(** Length of the match of [console_pattern] at the head of [l], if any. *)
Definition console_match (l : list Z) : option nat :=
  re_match console_pattern l
    (fun rest => Some (length l - length rest)%nat).

(** [re.finditer(console_pattern, line)] as the list of
    [(match.start(), match.end())], left to right, not overlapping: after a
    match the search resumes at its end ([skip] counts the characters still
    covered by the last match). *)
Fixpoint finditer_from (skip pos : nat) (l : list Z) : list (nat * nat) :=
  match l with
  | [] => []
  | _ :: t =>
      match skip with
      | S k => finditer_from k (S pos) t
      | O =>
          match console_match l with
          | Some n => (pos, (pos + n)%nat) :: finditer_from (n - 1) (S pos) t
          | None => finditer_from 0 (S pos) t
          end
      end
  end.

Definition finditer (line : list Z) : list (nat * nat) :=
  finditer_from 0 0 line.

(** ** Context suppressor *)

(** The local variables of the bracket-counting loop. *)
Record scan_state : Type := mk_scan {
  paren_count : Z;
  pos : nat;
  in_string : bool;
  string_char : option Z;
  escaped : bool
}.

Definition backslash : Z := 0x5C.
Definition lparen : Z := 0x28.
Definition rparen : Z := 0x29.
(** The three quote characters: double quote, single quote, backtick. *)
Definition quote_chars : list Z := [0x22; 0x27; 0x60].

(** [char == string_char], where [string_char] may be [None]. *)
Definition is_string_char (char : Z) (sc : option Z) : bool :=
  match sc with
  | Some q => char =? q
  | None => false
  end.

(** One iteration of the [while] loop (source lines 106-124). *)
Definition scan_body (char : Z) (st : scan_state) : scan_state :=
  let 'mk_scan pc p ins sc esc := st in
  if esc then mk_scan pc (S p) ins sc false
  else if char =? backslash then mk_scan pc (S p) ins sc true
  else if negb ins && code_in char quote_chars then
    mk_scan pc (S p) true (Some char) esc
  else if ins && is_string_char char sc then
    mk_scan pc (S p) false None esc
  else if negb ins then
    if char =? lparen then mk_scan (pc + 1) (S p) ins sc esc
    else if char =? rparen then mk_scan (pc - 1) (S p) ins sc esc
    else mk_scan pc (S p) ins sc esc
  else mk_scan pc (S p) ins sc esc.

(** [while pos < len(line) and paren_count > 0], on [rest = line[pos:]]. *)
Fixpoint scan_loop (rest : list Z) (st : scan_state) : scan_state :=
  match rest with
  | [] => st
  | char :: rest' =>
      if 0 <? paren_count st then scan_loop rest' (scan_body char st)
      else st
  end.

(** The loop's variables as set on source lines 99-103. *)
Definition scan_init (start : nat) : scan_state :=
  mk_scan 1 start false None false.

(** State in which the loop started after the match ending at [start]
    stops. *)
Definition scan_call (line : list Z) (start : nat) : scan_state :=
  scan_loop (skipn start line) (scan_init start).

(** The [for match in ...] loop: return [True] at the first match whose span
    contains [col_position]. *)
Fixpoint in_some_call (line : list Z) (col_position : nat)
    (matches : list (nat * nat)) : bool :=
  match matches with
  | [] => false
  | (m_start, m_end) :: matches' =>
      if (m_start <=? col_position)%nat
         && (col_position <=? pos (scan_call line m_end))%nat
      then true
      else in_some_call line col_position matches'
  end.

Definition is_in_console_log (line : list Z) (col_position : nat) : bool :=
  in_some_call line col_position (finditer line).

(** ** File scanner *)

(** One element of [emojis_found]: the dict with keys [line], [column],
    [emoji] and [context]. *)
Record finding : Type := mk_finding {
  f_line : nat;
  f_column : nat;
  f_emoji : Z;
  f_context : list Z
}.

(** [line.strip().startswith("//") or line.strip().startswith("#")] *)
Definition is_comment_line (line : list Z) : bool :=
  startswith (strip line) (codes "//") || startswith (strip line) (codes "#").

(** The context of the character in column [col_num] (source lines
    154-156). [col_num - 20] is cut at 0, which is [max(0, col_num - 20)]. *)
Definition context_of (line : list Z) (col_num : nat) : list Z :=
  let start := (col_num - 20)%nat in
  let end_ := Nat.min (length line) (col_num + 20) in
  strip (slice line start end_).

(** [for col_num, char in enumerate(line, 1)] over the characters [chars]
    from column [col_num] on; the findings appended, in order. *)
Fixpoint scan_chars (line : list Z) (line_num col_num : nat)
    (chars : list Z) : list finding :=
  match chars with
  | [] => []
  | char :: chars' =>
      let later := scan_chars line line_num (S col_num) chars' in
      if is_emoji char then
        if is_in_console_log line (col_num - 1) then later
        else mk_finding line_num col_num char (context_of line col_num)
             :: later
      else later
  end.

(** [for line_num, line in enumerate(lines, 1)] from line [line_num] on. *)
Fixpoint scan_lines (line_num : nat) (lines : list (list Z)) : list finding :=
  match lines with
  | [] => []
  | line :: lines' =>
      (if is_comment_line line then []
       else scan_chars line line_num 1 line)
      ++ scan_lines (S line_num) lines'
  end.

(** What [open(filepath, "r", encoding="utf-8")] followed by [f.read()]
    does: the decoded text, or an exception ([OSError] from [open],
    [UnicodeDecodeError] from [read]). *)
Inductive py_exception : Type := OSError | UnicodeDecodeError.

Inductive read_result : Type :=
  | Text (content : list Z)
  | Raises (e : py_exception).

(** [find_emojis_in_file]: the [try] body raises only in [open]/[read],
    before anything is appended, so the handler returns [emojis_found] as
    initialised. *)
Definition find_emojis_in_file (file : read_result) : list finding :=
  let emojis_found := [] in
  match file with
  | Text content => emojis_found ++ scan_lines 1 (split_lines content)
  | Raises _ => emojis_found
  end.

(** ** Directory walker *)

(** An entry [root_path.rglob("*")] yields: its path below the root (the
    parts after those of [root_path]), what [is_dir()] answers, and what
    reading it gives. *)
Record entry : Type := mk_entry {
  rel_parts : list string;
  is_dir : bool;
  file_read : read_result
}.

Definition extensions : list string :=
  [".js"; ".jsx"; ".ts"; ".tsx"; ".css"; ".scss"; ".json"]%string.

Definition skip_dirs : list string :=
  ["node_modules"; ".git"; "dist"; "build"; ".next"; "coverage";
   "__pycache__"]%string.

(** [x in xs] on strings. *)
Definition str_in (x : string) (xs : list string) : bool :=
  existsb (String.eqb x) xs.

(** [name.rfind('.')] *)
Fixpoint rfind_dot (name : string) : option nat :=
  match name with
  | EmptyString => None
  | String c rest =>
      match rfind_dot rest with
      | Some i => Some (S i)
      | None => if Ascii.eqb c "."%char then Some 0%nat else None
      end
  end.

(** [PurePath.suffix] on the final component: the text from the last dot,
    unless the dot is the first or the last character. *)
Definition suffix_of (name : string) : string :=
  match rfind_dot name with
  | Some i =>
      if (0 <? i)%nat && (i <? String.length name - 1)%nat
      then substring i (String.length name - i) name
      else EmptyString
  | None => EmptyString
  end.

(** [file_path.parts]: the parts of [root_path], then the entry's own. *)
Definition parts (root : list string) (e : entry) : list string :=
  root ++ rel_parts e.

(** [file_path.suffix] *)
Definition suffix (root : list string) (e : entry) : string :=
  suffix_of (List.last (parts root e) EmptyString).

(** [any(skip_dir in file_path.parts for skip_dir in skip_dirs)] *)
Definition in_excluded_dir (ps : list string) : bool :=
  existsb (fun skip_dir => str_in skip_dir ps) skip_dirs.

(** [str(file_path.relative_to(root_path))] *)
Definition relative_path (e : entry) : string :=
  String.concat "/" (rel_parts e).

(** Body of the [for file_path in root_path.rglob("*")] loop, on the pair
    [(results, total_emojis)]. *)
Definition scan_entry (root : list string)
    (acc : gmap string (list finding) * nat) (e : entry)
    : gmap string (list finding) * nat :=
  let '(results, total_emojis) := acc in
  if is_dir e then acc
  else if in_excluded_dir (parts root e) then acc
  else if negb (str_in (suffix root e) extensions) then acc
  else
    let emojis := find_emojis_in_file (file_read e) in
    match emojis with
    | [] => acc
    | _ :: _ =>
        (<[relative_path e := emojis]> results,
         (total_emojis + length emojis)%nat)
    end.

(** [scan_directory(root_dir)], given the parts of [Path(root_dir)] and the
    entries [rglob] yields. *)
Definition scan_directory (root : list string) (listing : list entry)
    : gmap string (list finding) * nat :=
  fold_left (scan_entry root) listing (∅, 0%nat).

(** ** Well-formed enumerations *)

(** ['/' in name] *)
Fixpoint has_slash (name : string) : bool :=
  match name with
  | EmptyString => false
  | String c rest => Ascii.eqb c "/"%char || has_slash rest
  end.

(** What [rglob] guarantees of the entries it yields: every entry lies
    below the root, no path component contains the separator, and no path
    is yielded twice. *)
Definition valid_listing (listing : list entry) : Prop :=
  NoDup (map rel_parts listing)
  /\ Forall (fun e => rel_parts e <> []
                      /\ Forall (fun p => has_slash p = false) (rel_parts e))
       listing.

(** The sum of the lengths of the recorded file results. *)
Definition recorded_findings (results : gmap string (list finding)) : nat :=
  map_fold (fun _ (v : list finding) n => (length v + n)%nat) 0%nat results.

(** The walker's three tests on an entry, as a proposition: a file, none of
    whose path components (those of the root included) is an excluded name,
    with a selected extension. *)
Definition eligible (root : list string) (e : entry) : Prop :=
  is_dir e = false
  /\ (forall d, In d skip_dirs -> ~ In d (parts root e))
  /\ In (suffix root e) extensions.

(** The same with the excluded names looked up in the path below the root
    only. *)
Definition eligible_below_root (root : list string) (e : entry) : Prop :=
  is_dir e = false
  /\ (forall d, In d skip_dirs -> ~ In d (rel_parts e))
  /\ In (suffix root e) extensions.

(** The state of the bracket-counting loop after the characters [cs]. *)
Definition scan_prefix (cs : list Z) (st : scan_state) : scan_state :=
  fold_left (fun s c => scan_body c s) cs st.

(** While the loop is inside a quoted run, the run was opened by one of the
    three quote characters, which [string_char] holds. *)
Definition quote_recorded (st : scan_state) : Prop :=
  in_string st = true ->
  exists q, In q quote_chars /\ string_char st = Some q.

(** ** Lines used as examples *)

Definition grinning_face : Z := 0x1F600.
Definition double_quote : Z := 0x22.

(** [console.log(] followed by a double quote and an emoji: the call is
    never closed. The emoji is at offset 13. *)
Definition line_unterminated : list Z :=
  codes "console.log(" ++ [double_quote; grinning_face].

(** [console.log(] with the string argument [a) ] + emoji, then the closing
    parenthesis. The emoji is at offset 16, the closing parenthesis of the
    call at offset 18. *)
Definition line_paren_in_string : list Z :=
  codes "console.log(" ++ [double_quote] ++ codes "a) "
  ++ [grinning_face; double_quote] ++ codes ")".

(** [console.log(x)] directly followed by an emoji (offset 14). *)
Definition line_after_close : list Z :=
  codes "console.log(x)" ++ [grinning_face].

(** [// ] + emoji + [ commented out] *)
Definition line_comment : list Z :=
  codes "// " ++ [grinning_face] ++ codes " commented out".

(** Leading blanks, [#] and two emoji. *)
Definition line_hash_comment : list Z :=
  codes "   # " ++ [grinning_face; 0x2B50].

(** A commented line with an emoji, then a line that is only an emoji. *)
Definition two_line_content : list Z :=
  line_comment ++ [0x0A; grinning_face].

(** ** Trees used as examples *)

Definition root_proj : list string := ["/"; "home"; "proj"]%string.

(** A root that lies under a directory named [build]. *)
Definition root_under_build : list string :=
  ["/"; "home"; "build"; "proj"]%string.

Definition entry_a_js : entry :=
  mk_entry ["a.js"]%string false (Text [grinning_face]).

Definition entry_plain_js : entry :=
  mk_entry ["b.js"]%string false (Text (codes "let x = 1;")).

Definition entry_css : entry :=
  mk_entry ["src"; "c.css"]%string false (Text [grinning_face; 0x2B50]).

Definition entry_node_modules : entry :=
  mk_entry ["node_modules"; "pkg"; "index.js"]%string false
    (Text [grinning_face]).

Definition entry_unreadable : entry :=
  mk_entry ["bad.json"]%string false (Raises UnicodeDecodeError).

Definition small_tree : list entry :=
  [entry_a_js; entry_plain_js; entry_css; entry_node_modules;
   entry_unreadable].

(** ** Notions used to state further properties *)

(** The words a regular expression matches. *)
Fixpoint lang (r : regex) (w : list Z) : Prop :=
  match r with
  | Eps => w = []
  | Lit c => w = [c]
  | Seq a b => exists u v, w = u ++ v /\ lang a u /\ lang b v
  | Alt a b => lang a w \/ lang b w
  | StarClass p => Forall (fun c => p c = true) w
  end.

(** The method names in the alternation of [console_pattern]. *)
Definition console_methods : list string :=
  ["log"; "warn"; "error"; "info"; "debug"]%string.

Definition blank (w : list Z) : Prop := Forall (fun c => isspace c = true) w.

(** The text of a console invocation up to its opening parenthesis: the
    word [console], blanks, a dot, blanks, a method name, blanks, [(]. *)
Definition console_call_text (w : list Z) : Prop :=
  exists (ws1 ws2 ws3 : list Z) (m : string),
    blank ws1 /\ blank ws2 /\ blank ws3 /\ In m console_methods
    /\ w = codes "console" ++ ws1 ++ [0x2E] ++ ws2 ++ codes m ++ ws3
           ++ [lparen].

(** Scan order: by line, then by column. *)
Definition finding_lt (f g : finding) : Prop :=
  (f_line f < f_line g)%nat
  \/ (f_line f = f_line g /\ (f_column f < f_column g)%nat).

(** The finding [f] moved [k] lines down. *)
Definition shift_line (k : nat) (f : finding) : finding :=
  mk_finding (k + f_line f) (f_column f) (f_emoji f) (f_context f).

(** ["\n".join(lines)] *)
Fixpoint join_lines (lines : list (list Z)) : list Z :=
  match lines with
  | [] => []
  | [line] => line
  | line :: lines' => line ++ 0x0A :: join_lines lines'
  end.

(** Number of emoji characters of a text. *)
Definition count_emoji (l : list Z) : nat := length (List.filter is_emoji l).

(** A text without quote characters and backslashes. *)
Definition plain_text (cs : list Z) : Prop :=
  Forall (fun c => code_in c quote_chars = false /\ c <> backslash) cs.

(** * Properties *)

(** ** Emoji classifier *)

Lemma is_emoji_spec_iff (c : Z) :
  is_emoji c = true <-> in_listed_ranges c \/ In c spec_exact_set.
Proof.
  unfold is_emoji, in_listed_ranges, code_in, common_symbols, math_symbols,
    spec_exact_set.
  cbn [existsb In]. lia.
Qed.

Lemma is_emoji_simple_iff (c : Z) :
  is_emoji_simple c = true <-> in_listed_ranges c \/ c = 0x2B50.
Proof.
  unfold is_emoji_simple, in_listed_ranges. lia.
Qed.

(** C1: [is_emoji] answers [true] exactly on the nine listed inclusive
    ranges and on the listed exact-match set (which contains U+2B50), and
    [false] everywhere else, in particular on ASCII letters and digits. It
    is a function on all code points (indeed on all integers). *)
Theorem is_emoji_characterisation :
  (forall c : Z,
      is_emoji c = true <-> in_listed_ranges c \/ In c spec_exact_set)
  /\ (forall c : Z,
        ~ (in_listed_ranges c \/ In c spec_exact_set) -> is_emoji c = false)
  /\ In 0x2B50 spec_exact_set
  /\ (forall c : Z, ascii_alnum c -> is_emoji c = false).
Proof.
  split; [exact is_emoji_spec_iff|].
  split.
  { intros c Hc. destruct (is_emoji c) eqn:E; [|reflexivity].
    exfalso. apply Hc, is_emoji_spec_iff, E. }
  split.
  { unfold spec_exact_set. cbn [In]. lia. }
  intros c Hc. unfold ascii_alnum in Hc.
  unfold is_emoji, code_in, common_symbols, math_symbols. cbn [existsb]. lia.
Qed.

Lemma is_emoji_characterisation_witness :
  ascii_alnum 0x41 /\ is_emoji 0x41 = false.
Proof.
  assert (H : ascii_alnum 0x41) by (unfold ascii_alnum; lia).
  split; [exact H|].
  exact (proj2 (proj2 (proj2 is_emoji_characterisation)) 0x41 H).
Defined.

(** C8: [is_emoji] is the same function as the nine ranges together with
    the single code point U+2B50: every other member of the two literal
    lists already lies in 0x2600-0x26FF or in 0x2700-0x27BF, and U+2B50 lies
    in none of the ranges. *)
Theorem is_emoji_simple_equiv :
  (forall c : Z, is_emoji c = is_emoji_simple c)
  /\ Forall (fun x => x = 0x2B50 \/ 0x2600 <= x <= 0x26FF
                      \/ 0x2700 <= x <= 0x27BF)
       (common_symbols ++ math_symbols)
  /\ In 0x2B50 math_symbols
  /\ ~ in_listed_ranges 0x2B50.
Proof.
  split.
  { intros c. apply eq_true_iff_eq.
    rewrite is_emoji_spec_iff, is_emoji_simple_iff.
    unfold in_listed_ranges, spec_exact_set. cbn [In]. lia. }
  split.
  { unfold common_symbols, math_symbols. cbn [app].
    repeat (constructor; [lia|]). constructor. }
  split.
  { unfold math_symbols. cbn [In]. lia. }
  unfold in_listed_ranges. lia.
Qed.

(** ** The pattern matcher and [finditer] *)

Lemma star_match_cont {A} (p : Z -> bool) (l : list Z)
    (k : list Z -> option A) (res : A) :
  star_match p l k = Some res -> exists l', k l' = Some res.
Proof.
  induction l as [|c t IH]; simpl; intros H; [eauto|].
  destruct (p c); [|eauto].
  destruct (star_match p t k) eqn:E; [|eauto].
  injection H as ->. apply IH. reflexivity.
Qed.

(** A successful match ends by calling its continuation. *)
Lemma re_match_cont {A} (r : regex) :
  forall (l : list Z) (k : list Z -> option A) (res : A),
    re_match r l k = Some res -> exists l', k l' = Some res.
Proof.
  induction r as [|c|a IHa b IHb|a IHa b IHb|p]; simpl; intros l k res H.
  - eauto.
  - destruct l as [|x t]; [discriminate|].
    destruct (x =? c); [eauto|discriminate].
  - apply IHa in H as [l1 H]. apply IHb in H. exact H.
  - destruct (re_match a l k) eqn:E; [|eauto].
    injection H as ->. eauto.
  - eapply star_match_cont, H.
Qed.

Lemma console_match_le (l : list Z) (n : nat) :
  console_match l = Some n -> (n <= length l)%nat.
Proof.
  unfold console_match. intros H.
  apply re_match_cont in H as [l' H]. injection H as <-. lia.
Qed.

(** Every match lies inside the line. *)
Lemma finditer_from_bounds (l : list Z) :
  forall skip p s e,
    In (s, e) (finditer_from skip p l) ->
    (p <= s)%nat /\ (s <= e)%nat /\ (e <= p + length l)%nat.
Proof.
  induction l as [|c t IH]; simpl; intros skip p s e H; [contradiction|].
  destruct skip as [|k].
  - destruct (console_match (c :: t)) as [n|] eqn:E.
    + destruct H as [H|H].
      * injection H as <- <-. apply console_match_le in E. simpl in E. lia.
      * apply IH in H. lia.
    + apply IH in H. lia.
  - apply IH in H. lia.
Qed.

Lemma finditer_bounds (line : list Z) (s e : nat) :
  In (s, e) (finditer line) -> (s <= e)%nat /\ (e <= length line)%nat.
Proof.
  intros H. apply finditer_from_bounds in H. lia.
Qed.

(** ** The bracket-counting loop *)

Lemma pos_scan_body (c : Z) (st : scan_state) :
  pos (scan_body c st) = S (pos st).
Proof.
  destruct st as [pc p ins sc esc]. unfold scan_body.
  repeat case_match; reflexivity.
Qed.

(** The only step that takes the counter from positive to zero is an
    unescaped [)] outside a quoted run, at nesting depth 1. *)
Lemma scan_body_close (c : Z) (st : scan_state) :
  0 < paren_count st -> paren_count (scan_body c st) <= 0 ->
  c = rparen /\ in_string st = false /\ escaped st = false
  /\ paren_count st = 1 /\ paren_count (scan_body c st) = 0.
Proof.
  destruct st as [pc p ins sc esc]. unfold scan_body.
  cbn [paren_count in_string escaped].
  destruct esc; [cbn; lia|].
  destruct (c =? backslash); [cbn; lia|].
  destruct ins; cbn [negb andb].
  - destruct (is_string_char c sc); cbn; lia.
  - destruct (code_in c quote_chars); [cbn; lia|].
    destruct (c =? lparen); [cbn; lia|].
    destruct (c =? rparen) eqn:E; [|cbn; lia].
    apply Z.eqb_eq in E. cbn. intros. repeat split; auto; lia.
Qed.

Lemma scan_loop_stopped (rest : list Z) (st : scan_state) :
  paren_count st <= 0 -> scan_loop rest st = st.
Proof.
  intros H. destruct rest as [|c rest]; simpl; [reflexivity|].
  destruct (0 <? paren_count st) eqn:E; [lia|reflexivity].
Qed.

(** A loop that stops with a positive counter has read the whole rest of
    the line. *)
Lemma scan_loop_unterminated (rest : list Z) :
  forall st,
    0 < paren_count (scan_loop rest st) ->
    pos (scan_loop rest st) = (pos st + length rest)%nat.
Proof.
  induction rest as [|c rest IH]; simpl; intros st H; [lia|].
  destruct (0 <? paren_count st) eqn:E; [|lia].
  rewrite (IH _ H), pos_scan_body. lia.
Qed.

(** A loop that stops with the counter at zero (or below) stopped right
    after an unescaped, unquoted [)]. *)
Lemma scan_loop_closed (rest : list Z) :
  forall st,
    0 < paren_count st -> paren_count (scan_loop rest st) <= 0 ->
    exists before after,
      rest = before ++ rparen :: after
      /\ in_string (scan_prefix before st) = false
      /\ escaped (scan_prefix before st) = false
      /\ paren_count (scan_prefix before st) = 1
      /\ scan_loop rest st = scan_body rparen (scan_prefix before st)
      /\ paren_count (scan_loop rest st) = 0
      /\ pos (scan_loop rest st) = S (pos st + length before).
Proof.
  induction rest as [|c rest IH]; simpl; intros st Hpos Hend; [lia|].
  destruct (0 <? paren_count st) eqn:E; [|lia].
  destruct (Z_lt_le_dec 0 (paren_count (scan_body c st))) as [Hgo|Hstop].
  - destruct (IH _ Hgo Hend)
      as (before & after & -> & Hq & He & Hc & Hl & Hz & Hp).
    exists (c :: before), after. simpl.
    repeat split; try assumption.
    rewrite Hp, pos_scan_body. lia.
  - rewrite (scan_loop_stopped _ _ Hstop) in *.
    destruct (scan_body_close c st Hpos Hstop) as (-> & Hq & He & Hc & Hz).
    exists [], rest. simpl.
    repeat split; try assumption.
    rewrite pos_scan_body. lia.
Qed.

(** The loop stops with a positive counter exactly when the counter is
    positive after every prefix of the rest of the line: it never returns
    to zero. *)
Lemma scan_loop_open_iff (rest : list Z) :
  forall st,
    0 < paren_count (scan_loop rest st) <->
    (forall n, 0 < paren_count (scan_prefix (take n rest) st)).
Proof.
  induction rest as [|c rest IH]; simpl; intros st.
  - split.
    + intros H n. destruct n; exact H.
    + intros H. exact (H 0%nat).
  - destruct (0 <? paren_count st) eqn:E.
    + rewrite IH. split.
      * intros H [|n]; simpl; [lia|apply H].
      * intros H n. exact (H (S n)).
    + split; [lia|]. intros H. specialize (H 0%nat). simpl in H. lia.
Qed.

Lemma pos_scan_loop_ge (rest : list Z) :
  forall st, (pos st <= pos (scan_loop rest st))%nat.
Proof.
  induction rest as [|c rest IH]; simpl; intros st; [lia|].
  destruct (0 <? paren_count st); [|lia].
  specialize (IH (scan_body c st)). rewrite pos_scan_body in IH. lia.
Qed.

(** The loop gets at least as far as the counter stays positive. *)
Lemma scan_loop_reaches (rest : list Z) :
  forall st n,
    (n <= length rest)%nat ->
    (forall m, (m < n)%nat ->
               0 < paren_count (scan_prefix (take m rest) st)) ->
    (pos st + n <= pos (scan_loop rest st))%nat.
Proof.
  induction rest as [|c rest IH]; intros st n Hn H.
  - simpl in *. lia.
  - destruct n as [|n].
    { pose proof (pos_scan_loop_ge (c :: rest) st). lia. }
    simpl in Hn. simpl.
    pose proof (H 0%nat ltac:(lia)) as H0. simpl in H0.
    destruct (0 <? paren_count st) eqn:E; [|lia].
    assert (Hn' : (n <= length rest)%nat) by lia.
    specialize (IH (scan_body c st) n Hn').
    rewrite pos_scan_body in IH.
    assert (Hgoal : (S (pos st) + n
                     <= pos (scan_loop rest (scan_body c st)))%nat).
    { apply IH. intros m Hm. apply (H (S m)). lia. }
    lia.
Qed.

Lemma in_some_call_true (line : list Z) (col : nat)
    (ms : list (nat * nat)) (s e : nat) :
  In (s, e) ms -> (s <= col)%nat -> (col <= pos (scan_call line e))%nat ->
  in_some_call line col ms = true.
Proof.
  intros Hin Hs He. induction ms as [|[s' e'] ms IH]; [contradiction|].
  simpl. destruct Hin as [Heq|Hin].
  - injection Heq as -> ->.
    destruct (s <=? col)%nat eqn:E1; [|lia].
    destruct (col <=? pos (scan_call line e))%nat eqn:E2; [|lia].
    reflexivity.
  - destruct (_ && _); [reflexivity|]. apply IH, Hin.
Qed.

(** The converse: a suppressed offset lies in the span of some match. *)
Lemma in_some_call_inv (line : list Z) (col : nat) (ms : list (nat * nat)) :
  in_some_call line col ms = true ->
  exists s e, In (s, e) ms /\ (s <= col)%nat
              /\ (col <= pos (scan_call line e))%nat.
Proof.
  induction ms as [|[s e] ms IH]; simpl; [discriminate|].
  destruct ((s <=? col)%nat && (col <=? pos (scan_call line e))%nat) eqn:E.
  - intros _. exists s, e. split; [left; reflexivity|lia].
  - intros H. destruct (IH H) as (s' & e' & Hin & Hb).
    exists s', e'. split; [right; exact Hin|exact Hb].
Qed.

Lemma quote_recorded_body (c : Z) (st : scan_state) :
  quote_recorded st -> quote_recorded (scan_body c st).
Proof.
  destruct st as [pc p ins sc esc]. unfold quote_recorded, scan_body.
  cbn [in_string string_char]. intros Hinv.
  destruct esc; [exact Hinv|].
  destruct (c =? backslash); [exact Hinv|].
  destruct ins; cbn [negb andb].
  - destruct (is_string_char c sc); cbn; [discriminate|exact Hinv].
  - destruct (code_in c quote_chars) eqn:E.
    + cbn. intros _. exists c. split; [|reflexivity].
      unfold code_in in E. apply existsb_exists in E as (q & Hq & E).
      apply Z.eqb_eq in E. subst q. exact Hq.
    + repeat case_match; cbn; discriminate.
Qed.

Lemma quote_recorded_prefix (cs : list Z) :
  forall st, quote_recorded st -> quote_recorded (scan_prefix cs st).
Proof.
  unfold scan_prefix.
  induction cs as [|c cs IH]; simpl; intros st H; [exact H|].
  apply IH, quote_recorded_body, H.
Qed.

Lemma quote_recorded_init (start : nat) : quote_recorded (scan_init start).
Proof. unfold quote_recorded, scan_init. cbn. discriminate. Qed.

(** Inside a quoted run a parenthesis leaves the counter alone. *)
Lemma scan_body_quoted_paren (c : Z) (st : scan_state) :
  in_string st = true -> c = lparen \/ c = rparen ->
  paren_count (scan_body c st) = paren_count st.
Proof.
  destruct st as [pc p ins sc esc]. unfold scan_body.
  cbn [in_string paren_count]. intros -> _.
  repeat case_match; try reflexivity; discriminate.
Qed.

(** A quoted run is closed by its own quote character, unescaped, and by
    nothing else. *)
Lemma scan_body_quoted_close (c q : Z) (st : scan_state) :
  in_string st = true -> string_char st = Some q -> In q quote_chars ->
  (in_string (scan_body c st) = false <-> escaped st = false /\ c = q).
Proof.
  destruct st as [pc p ins sc esc]. unfold scan_body, quote_chars, backslash.
  cbn [in_string string_char escaped In]. intros -> -> Hq.
  destruct esc; [cbn; intuition discriminate|].
  destruct (c =? 0x5C) eqn:Eb.
  { cbn. split; [discriminate|]. intros [_ ->]. lia. }
  cbn [negb andb is_string_char].
  destruct (c =? q) eqn:Eq; cbn.
  - apply Z.eqb_eq in Eq. intuition.
  - apply Z.eqb_neq in Eq. intuition discriminate.
Qed.

(** C3: when the loop started after a match stops with the counter still
    positive (the call is not closed before the line ends), it stops at the
    end of the line, and every offset from the start of the match to the end
    of the line is suppressed. The loop stops with a positive counter
    exactly when the counter never returns to zero on the rest of the line.
    In particular the emoji of
    [line_unterminated] is suppressed and the scanner reports nothing for
    that line. *)
Theorem unterminated_call_suppressed :
  (forall (line : list Z) (s e col : nat),
      In (s, e) (finditer line) ->
      0 < paren_count (scan_call line e) ->
      (s <= col <= length line)%nat ->
      pos (scan_call line e) = length line
      /\ is_in_console_log line col = true)
  /\ (forall (line : list Z) (e : nat),
        0 < paren_count (scan_call line e) <->
        (forall n : nat,
            0 < paren_count (scan_prefix (take n (drop e line))
                               (scan_init e))))
  /\ (line_unterminated !! 13%nat = Some grinning_face
      /\ is_emoji grinning_face = true
      /\ finditer line_unterminated = [(0, 12)%nat]
      /\ 0 < paren_count (scan_call line_unterminated 12)
      /\ is_in_console_log line_unterminated 13 = true
      /\ find_emojis_in_file (Text line_unterminated) = []).
Proof.
  split.
  - intros line s e col Hin Hopen Hcol.
    destruct (finditer_bounds _ _ _ Hin) as [Hse He].
    assert (Hend : pos (scan_call line e) = length line).
    { unfold scan_call in *. rewrite (scan_loop_unterminated _ _ Hopen).
      cbn [pos scan_init]. rewrite length_skipn. lia. }
    split; [exact Hend|].
    apply (in_some_call_true _ _ _ s e Hin); lia.
  - split; [|repeat split; vm_compute; reflexivity].
    intros line e. apply scan_loop_open_iff.
Qed.

Lemma unterminated_call_suppressed_witness :
  In (0, 12)%nat (finditer line_unterminated)
  /\ 0 < paren_count (scan_call line_unterminated 12)
  /\ pos (scan_call line_unterminated 12) = length line_unterminated
  /\ is_in_console_log line_unterminated 13 = true.
Proof.
  assert (Hin : In (0, 12)%nat (finditer line_unterminated))
    by (vm_compute; left; reflexivity).
  assert (Hopen : 0 < paren_count (scan_call line_unterminated 12))
    by (vm_compute; reflexivity).
  assert (Hcol : (0 <= 13 <= length line_unterminated)%nat)
    by (vm_compute; lia).
  split; [exact Hin|]. split; [exact Hopen|].
  exact (proj1 unterminated_call_suppressed
           line_unterminated 0%nat 12%nat 13%nat Hin Hopen Hcol).
Defined.

(** C9: when the loop started after a match stops with the counter at zero,
    it stopped one past an unescaped, unquoted [)] at some index [p]: its
    position is [p + 1], and offset [p + 1] is suppressed too. In particular
    the emoji that directly follows [console.log(x)] in [line_after_close]
    is suppressed. *)
Theorem offset_after_close_suppressed :
  (forall (line : list Z) (s e : nat),
      In (s, e) (finditer line) ->
      paren_count (scan_call line e) = 0 ->
      exists p : nat,
        (e <= p)%nat
        /\ line !! p = Some rparen
        /\ in_string (scan_prefix (take (p - e) (drop e line)) (scan_init e))
           = false
        /\ escaped (scan_prefix (take (p - e) (drop e line)) (scan_init e))
           = false
        /\ pos (scan_call line e) = S p
        /\ is_in_console_log line (S p) = true)
  /\ (line_after_close !! 13%nat = Some rparen
      /\ line_after_close !! 14%nat = Some grinning_face
      /\ is_emoji grinning_face = true
      /\ finditer line_after_close = [(0, 12)%nat]
      /\ pos (scan_call line_after_close 12) = 14%nat
      /\ is_in_console_log line_after_close 14 = true
      /\ find_emojis_in_file (Text line_after_close) = []).
Proof.
  split.
  - intros line s e Hin Hzero.
    destruct (finditer_bounds _ _ _ Hin) as [Hse He].
    unfold scan_call in *.
    destruct (scan_loop_closed (drop e line) (scan_init e))
      as (before & after & Hrest & Hq & Hesc & _ & _ & _ & Hp);
      [cbn; lia|lia|].
    cbn [pos scan_init] in Hp.
    exists (e + length before)%nat.
    replace (e + length before - e)%nat with (length before) by lia.
    assert (Htake : take (length before) (drop e line) = before)
      by (rewrite Hrest; apply take_app_length).
    rewrite Htake.
    split; [lia|]. split.
    { rewrite <- lookup_drop, Hrest. apply list_lookup_middle. reflexivity. }
    split; [exact Hq|]. split; [exact Hesc|]. split; [exact Hp|].
    apply (in_some_call_true _ _ _ s e Hin); [lia|].
    unfold scan_call. rewrite Hp. lia.
  - repeat split; vm_compute; reflexivity.
Qed.

Lemma offset_after_close_suppressed_witness :
  In (0, 12)%nat (finditer line_after_close)
  /\ paren_count (scan_call line_after_close 12) = 0
  /\ exists p : nat,
       line_after_close !! p = Some rparen
       /\ is_in_console_log line_after_close (S p) = true.
Proof.
  assert (Hin : In (0, 12)%nat (finditer line_after_close))
    by (vm_compute; left; reflexivity).
  assert (Hzero : paren_count (scan_call line_after_close 12) = 0)
    by (vm_compute; reflexivity).
  split; [exact Hin|]. split; [exact Hzero|].
  destruct (proj1 offset_after_close_suppressed
              line_after_close 0%nat 12%nat Hin Hzero)
    as (p & _ & Hp & _ & _ & _ & Hsup).
  exists p. split; [exact Hp|exact Hsup].
Defined.

(** C4: in any state the loop can be in after a match, if a quoted run is
    active then (a) reading [(] or [)] leaves the nesting counter unchanged,
    and (b) the run was opened by a quote character [q], and the next
    character closes it exactly when it is [q] itself and not escaped. The
    loop therefore stops with the counter at zero only right after an
    unquoted, unescaped [)], and an offset is suppressed as long as the
    counter has not returned to zero before it. In [line_paren_in_string]
    the [)] inside the string does not end the call: the span reaches the
    real closing parenthesis and the emoji is suppressed. *)
Theorem quoted_parens_not_counted :
  (forall (start : nat) (cs : list Z) (c : Z),
      in_string (scan_prefix cs (scan_init start)) = true ->
      (c = lparen \/ c = rparen ->
       paren_count (scan_body c (scan_prefix cs (scan_init start)))
       = paren_count (scan_prefix cs (scan_init start)))
      /\ exists q : Z,
          In q quote_chars
          /\ string_char (scan_prefix cs (scan_init start)) = Some q
          /\ (in_string (scan_body c (scan_prefix cs (scan_init start)))
              = false
              <-> escaped (scan_prefix cs (scan_init start)) = false
                  /\ c = q))
  /\ (forall (line : list Z) (e : nat),
        paren_count (scan_call line e) = 0 ->
        exists before after : list Z,
          drop e line = before ++ rparen :: after
          /\ in_string (scan_prefix before (scan_init e)) = false
          /\ escaped (scan_prefix before (scan_init e)) = false
          /\ pos (scan_call line e) = S (e + length before))
  /\ (forall (line : list Z) (s e col : nat),
        In (s, e) (finditer line) ->
        (s <= col <= length line)%nat ->
        (forall m : nat,
            (m < col - e)%nat ->
            0 < paren_count (scan_prefix (take m (drop e line))
                               (scan_init e))) ->
        is_in_console_log line col = true)
  /\ (line_paren_in_string !! 14%nat = Some rparen
      /\ line_paren_in_string !! 16%nat = Some grinning_face
      /\ line_paren_in_string !! 18%nat = Some rparen
      /\ finditer line_paren_in_string = [(0, 12)%nat]
      /\ in_string (scan_prefix (take 2 (drop 12 line_paren_in_string))
                      (scan_init 12)) = true
      /\ pos (scan_call line_paren_in_string 12) = 19%nat
      /\ is_in_console_log line_paren_in_string 16 = true
      /\ find_emojis_in_file (Text line_paren_in_string) = []).
Proof.
  split; [|split; [|split]].
  - intros start cs c Hq. split.
    + apply scan_body_quoted_paren, Hq.
    + destruct (quote_recorded_prefix cs _ (quote_recorded_init start) Hq)
        as (q & Hin & Hsc).
      exists q. split; [exact Hin|]. split; [exact Hsc|].
      apply scan_body_quoted_close; assumption.
  - intros line e Hzero. unfold scan_call in *.
    destruct (scan_loop_closed (drop e line) (scan_init e))
      as (before & after & Hrest & Hq & Hesc & _ & _ & _ & Hp);
      [cbn; lia|lia|].
    exists before, after. cbn [pos scan_init] in Hp. auto.
  - intros line s e col Hin Hcol Hopen.
    destruct (finditer_bounds _ _ _ Hin) as [Hse He].
    apply (in_some_call_true _ _ _ s e Hin); [lia|].
    unfold scan_call.
    pose proof (scan_loop_reaches (drop e line) (scan_init e) (col - e)) as Hr.
    rewrite length_skipn in Hr. cbn [pos scan_init] in Hr.
    specialize (Hr ltac:(lia) Hopen). lia.
  - repeat split; vm_compute; reflexivity.
Qed.

Lemma quoted_parens_not_counted_witness :
  in_string (scan_prefix [double_quote] (scan_init 12)) = true
  /\ paren_count (scan_body rparen (scan_prefix [double_quote] (scan_init 12)))
     = paren_count (scan_prefix [double_quote] (scan_init 12)).
Proof.
  assert (Hq : in_string (scan_prefix [double_quote] (scan_init 12)) = true)
    by (vm_compute; reflexivity).
  split; [exact Hq|].
  exact (proj1 (proj1 quoted_parens_not_counted 12%nat [double_quote] rparen
                  Hq) (or_intror eq_refl)).
Defined.

(** ** File scanner *)

Lemma scan_chars_line (line : list Z) (line_num : nat) (chars : list Z) :
  forall col_num f,
    In f (scan_chars line line_num col_num chars) -> f_line f = line_num.
Proof.
  induction chars as [|c chars IH]; simpl; intros col f H; [contradiction|].
  destruct (is_emoji c); [|eauto].
  destruct (is_in_console_log line (col - 1)); [eauto|].
  destruct H as [<-|H]; [reflexivity|eauto].
Qed.

(** Every finding comes from a line that is not a comment line, and carries
    that line's number. *)
Lemma scan_lines_origin (lines : list (list Z)) :
  forall line_num f,
    In f (scan_lines line_num lines) ->
    exists i line,
      lines !! i = Some line /\ is_comment_line line = false
      /\ f_line f = (line_num + i)%nat.
Proof.
  induction lines as [|l lines IH]; simpl; intros n f H; [contradiction|].
  apply in_app_or in H as [H|H].
  - destruct (is_comment_line l) eqn:E; [contradiction|].
    exists 0%nat, l. apply scan_chars_line in H.
    split; [reflexivity|]. split; [exact E|lia].
  - destruct (IH _ _ H) as (i & line & Hi & Hc & Hl).
    exists (S i), line. split; [exact Hi|]. split; [exact Hc|lia].
Qed.

(** C6: no finding of a file carries the number of a line whose stripped
    form begins with [//] or [#], and such a line adds nothing to the
    findings of the lines after it, however many emoji it holds. The
    scanner reports nothing for [line_comment] and for
    [line_hash_comment]. *)
Theorem comment_lines_emit_nothing :
  (forall (content : list Z) (i : nat) (line : list Z) (f : finding),
      split_lines content !! i = Some line ->
      is_comment_line line = true ->
      In f (find_emojis_in_file (Text content)) ->
      f_line f <> S i)
  /\ (forall (line : list Z) (line_num : nat) (lines : list (list Z)),
        is_comment_line line = true ->
        scan_lines line_num (line :: lines) = scan_lines (S line_num) lines)
  /\ (is_comment_line line_comment = true
      /\ find_emojis_in_file (Text line_comment) = []
      /\ is_comment_line line_hash_comment = true
      /\ find_emojis_in_file (Text line_hash_comment) = []).
Proof.
  split; [|split].
  - intros content i line f Hi Hc Hf Hline.
    unfold find_emojis_in_file in Hf. cbn [app] in Hf.
    destruct (scan_lines_origin _ _ _ Hf) as (j & l & Hj & Hn & Hl).
    assert (j = i) by lia. subst j. congruence.
  - intros line n lines Hc. simpl. rewrite Hc. reflexivity.
  - repeat split; vm_compute; reflexivity.
Qed.

Lemma comment_lines_emit_nothing_witness :
  split_lines two_line_content !! 0%nat = Some line_comment
  /\ is_comment_line line_comment = true
  /\ In (mk_finding 2 1 grinning_face [grinning_face])
       (find_emojis_in_file (Text two_line_content))
  /\ f_line (mk_finding 2 1 grinning_face [grinning_face]) <> 1%nat.
Proof.
  assert (H1 : split_lines two_line_content !! 0%nat = Some line_comment)
    by (vm_compute; reflexivity).
  assert (H2 : is_comment_line line_comment = true)
    by (vm_compute; reflexivity).
  assert (H3 : In (mk_finding 2 1 grinning_face [grinning_face])
                 (find_emojis_in_file (Text two_line_content)))
    by (vm_compute; left; reflexivity).
  split; [exact H1|]. split; [exact H2|]. split; [exact H3|].
  exact (proj1 comment_lines_emit_nothing two_line_content 0%nat
           line_comment _ H1 H2 H3).
Defined.

(** ** Relative paths as dictionary keys *)

Lemma has_slash_app (b r : string) :
  has_slash (String.append b (String "/" r)) = true.
Proof.
  induction b as [|c b IH]; simpl; [reflexivity|].
  rewrite IH. apply orb_true_r.
Qed.

Lemma split_at_slash (a : string) :
  forall b r1 r2 : string,
    has_slash a = false -> has_slash b = false ->
    String.append a (String "/" r1) = String.append b (String "/" r2) ->
    a = b /\ r1 = r2.
Proof.
  induction a as [|c a IH]; intros [|c' b] r1 r2 Ha Hb H; simpl in *.
  - injection H as ->. split; reflexivity.
  - injection H as <- _. discriminate.
  - injection H as -> _. discriminate.
  - injection H as -> H.
    apply orb_false_elim in Ha as [_ Ha]. apply orb_false_elim in Hb as [_ Hb].
    destruct (IH _ _ _ Ha Hb H) as [-> ->]. split; reflexivity.
Qed.

Lemma concat_cons_cons (x y : string) (l : list string) :
  String.concat "/" (x :: y :: l)
  = String.append x (String "/" (String.concat "/" (y :: l))).
Proof. reflexivity. Qed.

(** Joining with [/] loses nothing when no component contains [/]. *)
Lemma concat_slash_inj (l1 : list string) :
  forall l2 : list string,
    l1 <> [] -> l2 <> [] ->
    Forall (fun p => has_slash p = false) l1 ->
    Forall (fun p => has_slash p = false) l2 ->
    String.concat "/" l1 = String.concat "/" l2 -> l1 = l2.
Proof.
  induction l1 as [|a [|a2 l1] IH]; intros [|b [|b2 l2]] N1 N2 F1 F2 H;
    try congruence.
  - simpl in H. congruence.
  - rewrite concat_cons_cons in H. cbn [String.concat] in H.
    apply Forall_inv in F1. rewrite H, has_slash_app in F1. discriminate.
  - rewrite concat_cons_cons in H. cbn [String.concat] in H.
    apply Forall_inv in F2. rewrite <- H, has_slash_app in F2. discriminate.
  - rewrite !concat_cons_cons in H.
    pose proof (Forall_inv F1) as Ha. pose proof (Forall_inv F2) as Hb.
    destruct (split_at_slash _ _ _ _ Ha Hb H) as [-> Hrest].
    f_equal. apply IH; try congruence.
    + exact (Forall_inv_tail F1).
    + exact (Forall_inv_tail F2).
Qed.

Lemma relative_path_inj (e1 e2 : entry) :
  rel_parts e1 <> [] -> rel_parts e2 <> [] ->
  Forall (fun p => has_slash p = false) (rel_parts e1) ->
  Forall (fun p => has_slash p = false) (rel_parts e2) ->
  relative_path e1 = relative_path e2 -> rel_parts e1 = rel_parts e2.
Proof. unfold relative_path. apply concat_slash_inj. Qed.

(** ** Directory walker *)

Lemma str_in_In (x : string) (xs : list string) :
  str_in x xs = true <-> In x xs.
Proof.
  unfold str_in. rewrite existsb_exists. split.
  - intros (y & Hy & E). apply String.eqb_eq in E. subst y. exact Hy.
  - intros H. exists x. split; [exact H|apply String.eqb_refl].
Qed.

Lemma in_excluded_dir_true (ps : list string) :
  in_excluded_dir ps = true <-> exists d, In d skip_dirs /\ In d ps.
Proof.
  unfold in_excluded_dir. rewrite existsb_exists.
  split; intros (d & Hd & H); exists d; (split; [exact Hd|]);
    apply str_in_In, H.
Qed.

Lemma in_excluded_dir_false (ps : list string) :
  in_excluded_dir ps = false <-> forall d, In d skip_dirs -> ~ In d ps.
Proof.
  split.
  - intros H d Hd Hin.
    assert (in_excluded_dir ps = true) by (apply in_excluded_dir_true; eauto).
    congruence.
  - intros H. destruct (in_excluded_dir ps) eqn:E; [|reflexivity].
    apply in_excluded_dir_true in E as (d & Hd & Hin).
    exfalso. exact (H d Hd Hin).
Qed.

(** The three [continue] tests of the loop pass exactly on eligible
    entries. *)
Lemma eligible_tests (root : list string) (e : entry) :
  eligible root e <->
  is_dir e = false /\ in_excluded_dir (parts root e) = false
  /\ str_in (suffix root e) extensions = true.
Proof.
  unfold eligible. rewrite in_excluded_dir_false, str_in_In. reflexivity.
Qed.

(** The two things the loop body can do with an entry. *)
Lemma scan_entry_cases (root : list string)
    (acc : gmap string (list finding) * nat) (e : entry) :
  (eligible root e /\ find_emojis_in_file (file_read e) <> []
   /\ scan_entry root acc e
      = (<[relative_path e := find_emojis_in_file (file_read e)]> (fst acc),
         (snd acc + length (find_emojis_in_file (file_read e)))%nat))
  \/ ((~ eligible root e \/ find_emojis_in_file (file_read e) = [])
      /\ scan_entry root acc e = acc).
Proof.
  destruct acc as [results total]. unfold scan_entry.
  rewrite eligible_tests.
  destruct (is_dir e); [right; split; [left; intuition discriminate|easy]|].
  destruct (in_excluded_dir (parts root e));
    [right; split; [left; intuition discriminate|easy]|].
  destruct (str_in (suffix root e) extensions); cbn [negb];
    [|right; split; [left; intuition discriminate|easy]].
  destruct (find_emojis_in_file (file_read e)) as [|f fs] eqn:E.
  - right. split; [right; reflexivity|reflexivity].
  - left. repeat split. discriminate.
Qed.

Lemma scan_entry_skip (root : list string) (e : entry) :
  ~ eligible root e \/ find_emojis_in_file (file_read e) = [] ->
  forall acc, scan_entry root acc e = acc.
Proof.
  intros H acc.
  destruct (scan_entry_cases root acc e) as [(He & Hf & _)|[_ Hs]];
    [|exact Hs].
  destruct H as [H|H]; contradiction.
Qed.

Lemma scan_directory_snoc (root : list string) (l : list entry) (e : entry) :
  scan_directory root (l ++ [e]) = scan_entry root (scan_directory root l) e.
Proof. unfold scan_directory. apply fold_left_app. Qed.

(** An entry the loop body passes over can be removed from the
    enumeration. *)
Lemma scan_directory_skip (root : list string)
    (before after : list entry) (e : entry) :
  (forall acc, scan_entry root acc e = acc) ->
  scan_directory root (before ++ e :: after)
  = scan_directory root (before ++ after).
Proof.
  intros H. unfold scan_directory.
  rewrite !fold_left_app. cbn [fold_left]. rewrite H. reflexivity.
Qed.

Lemma scan_directory_all_skipped (root : list string) (listing : list entry) :
  (forall e acc, In e listing -> scan_entry root acc e = acc) ->
  scan_directory root listing = (∅, 0%nat).
Proof.
  unfold scan_directory. generalize (∅ : gmap string (list finding), 0%nat).
  induction listing as [|e l IH]; intros acc H; [reflexivity|].
  cbn [fold_left]. rewrite H by (left; reflexivity).
  apply IH. intros e' acc' Hin. apply H. right. exact Hin.
Qed.

Lemma valid_listing_snoc (l : list entry) (e : entry) :
  valid_listing (l ++ [e]) ->
  valid_listing l
  /\ rel_parts e <> []
  /\ Forall (fun p => has_slash p = false) (rel_parts e)
  /\ (forall e', In e' l -> rel_parts e' <> rel_parts e).
Proof.
  unfold valid_listing. rewrite map_app. cbn [map].
  intros [Hnd Hall].
  apply NoDup_app in Hnd as (Hnd & Hfresh & _).
  apply Forall_app in Hall as [Hall He].
  apply Forall_inv in He as [Hne Hns].
  repeat split; try assumption.
  intros e' Hin Heq. apply (Hfresh (rel_parts e')).
  - apply list_elem_of_In, in_map, Hin.
  - rewrite Heq. apply list_elem_of_In. left. reflexivity.
Qed.

Lemma valid_listing_entry (l : list entry) (e : entry) :
  valid_listing l -> In e l ->
  rel_parts e <> [] /\ Forall (fun p => has_slash p = false) (rel_parts e).
Proof.
  intros [_ Hall] Hin.
  exact (proj1 (List.Forall_forall _ _) Hall e Hin).
Qed.

(** What the returned mapping holds: under the relative path of each
    eligible entry with findings, those findings, and nothing else. *)
Lemma scan_directory_lookup (root : list string) (listing : list entry) :
  valid_listing listing ->
  forall (k : string) (v : list finding),
    fst (scan_directory root listing) !! k = Some v <->
    exists e, In e listing /\ relative_path e = k /\ eligible root e
              /\ v = find_emojis_in_file (file_read e) /\ v <> [].
Proof.
  induction listing as [|e l IH] using rev_ind; intros Hvalid k v.
  - cbn. rewrite lookup_empty. split; [discriminate|].
    intros (e & [] & _).
  - destruct (valid_listing_snoc _ _ Hvalid) as (Hl & Hne & Hns & Hfresh).
    specialize (IH Hl).
    assert (Hother : forall e', In e' l -> relative_path e' <> relative_path e).
    { intros e' Hin Heq. apply (Hfresh e' Hin).
      destruct (valid_listing_entry _ _ Hl Hin) as [Hne' Hns'].
      apply relative_path_inj; assumption. }
    rewrite scan_directory_snoc.
    destruct (scan_entry_cases root (scan_directory root l) e)
      as [(Hel & Hfs & ->)|[Hskip ->]]; cbn [fst].
    + destruct (decide (relative_path e = k)) as [<-|Hk].
      * rewrite lookup_insert_eq. split.
        -- intros [= <-]. exists e. rewrite in_app_iff. cbn. tauto.
        -- intros (e' & Hin & Hk & _ & -> & _).
           apply in_app_iff in Hin as [Hin|[<-|[]]]; [|reflexivity].
           exfalso. exact (Hother e' Hin Hk).
      * rewrite lookup_insert_ne by exact Hk. rewrite IH. split.
        -- intros (e' & Hin & H). exists e'. rewrite in_app_iff. tauto.
        -- intros (e' & Hin & Hk' & H).
           apply in_app_iff in Hin as [Hin|[<-|[]]]; [|contradiction].
           exists e'. tauto.
    + rewrite IH. split.
      * intros (e' & Hin & H). exists e'. rewrite in_app_iff. tauto.
      * intros (e' & Hin & Hk' & Hel & Hv & Hnil).
        apply in_app_iff in Hin as [Hin|[<-|[]]].
        -- exists e'. tauto.
        -- exfalso. destruct Hskip as [Hs|Hs]; [exact (Hs Hel)|].
           apply Hnil. rewrite Hv. exact Hs.
Qed.

(** The returned total is the sum of the lengths of the recorded lists. *)
Lemma scan_directory_total (root : list string) (listing : list entry) :
  valid_listing listing ->
  snd (scan_directory root listing)
  = recorded_findings (fst (scan_directory root listing)).
Proof.
  induction listing as [|e l IH] using rev_ind; intros Hvalid.
  - cbn. unfold recorded_findings. rewrite map_fold_empty. reflexivity.
  - destruct (valid_listing_snoc _ _ Hvalid) as (Hl & Hne & Hns & Hfresh).
    specialize (IH Hl). rewrite scan_directory_snoc.
    destruct (scan_entry_cases root (scan_directory root l) e)
      as [(Hel & Hfs & ->)|[Hskip ->]]; cbn [fst snd]; [|exact IH].
    unfold recorded_findings at 1. rewrite map_fold_insert_L.
    + fold (recorded_findings (fst (scan_directory root l))). lia.
    + intros. lia.
    + destruct (fst (scan_directory root l) !! relative_path e) eqn:E;
        [|reflexivity].
      apply (scan_directory_lookup root l Hl) in E
        as (e' & Hin & Hk & _).
      exfalso. apply (Hfresh e' Hin).
      destruct (valid_listing_entry _ _ Hl Hin) as [Hne' Hns'].
      apply relative_path_inj; assumption.
Qed.

Lemma valid_listing_same_entry (l : list entry) (e1 e2 : entry) :
  valid_listing l -> In e1 l -> In e2 l ->
  rel_parts e1 = rel_parts e2 -> e1 = e2.
Proof.
  intros [Hnd _]. induction l as [|e l IH]; cbn in *; [contradiction|].
  apply NoDup_cons in Hnd as [Hfresh Hnd].
  intros [<-|H1] [<-|H2] Heq; try reflexivity.
  - exfalso. apply Hfresh. rewrite Heq. apply list_elem_of_In, in_map, H2.
  - exfalso. apply Hfresh. rewrite <- Heq. apply list_elem_of_In, in_map, H1.
  - apply IH; assumption.
Qed.

Ltac solve_valid_listing :=
  split;
  [ cbn; repeat (apply NoDup_cons_2;
                 [rewrite list_elem_of_In; cbn; intuition discriminate|]);
    apply NoDup_nil_2
  | repeat (apply Forall_cons; split;
            [split; [discriminate | repeat constructor]|]);
    apply Forall_nil_2 ].

Lemma small_tree_valid : valid_listing small_tree.
Proof. solve_valid_listing. Qed.

(** C5: when opening or decoding fails, [find_emojis_in_file] returns the
    empty list (it is a function: nothing propagates), the walk goes on as
    if the entry were not there, and the result is the one obtained for a
    file of the same name whose text has no finding. *)
Theorem unreadable_file_is_skipped :
  (forall exn : py_exception, find_emojis_in_file (Raises exn) = [])
  /\ (forall (root : list string) (before after : list entry)
             (rel : list string) (d : bool) (exn : py_exception),
        scan_directory root (before ++ mk_entry rel d (Raises exn) :: after)
        = scan_directory root (before ++ after))
  /\ (forall (root : list string) (before after : list entry)
             (rel : list string) (d : bool) (exn : py_exception)
             (content : list Z),
        find_emojis_in_file (Text content) = [] ->
        scan_directory root (before ++ mk_entry rel d (Raises exn) :: after)
        = scan_directory root
            (before ++ mk_entry rel d (Text content) :: after)).
Proof.
  split; [reflexivity|]. split.
  - intros. apply scan_directory_skip, scan_entry_skip. right. reflexivity.
  - intros root before after rel d exn content Hnone.
    rewrite !scan_directory_skip; [reflexivity| |];
      apply scan_entry_skip; right; [exact Hnone|reflexivity].
Qed.

Lemma unreadable_file_is_skipped_witness :
  find_emojis_in_file (Text (codes "let x = 1;")) = []
  /\ scan_directory root_proj
       ([entry_a_js] ++ entry_unreadable :: [entry_css])
     = scan_directory root_proj
         ([entry_a_js]
          ++ mk_entry ["bad.json"]%string false (Text (codes "let x = 1;"))
          :: [entry_css]).
Proof.
  assert (H : find_emojis_in_file (Text (codes "let x = 1;")) = [])
    by (vm_compute; reflexivity).
  split; [exact H|].
  exact (proj2 (proj2 unreadable_file_is_skipped) root_proj [entry_a_js]
           [entry_css] ["bad.json"]%string false UnicodeDecodeError
           (codes "let x = 1;") H).
Defined.

(** C7: for the entries a walk enumerates, every list recorded in the
    returned mapping is non-empty, an entry whose scan finds nothing has no
    key in the mapping, and the returned total is the sum of the lengths of
    the recorded lists. *)
Theorem scan_report_invariants (root : list string) (listing : list entry) :
  valid_listing listing ->
  (forall (k : string) (v : list finding),
      fst (scan_directory root listing) !! k = Some v -> v <> [])
  /\ (forall e : entry,
        In e listing -> find_emojis_in_file (file_read e) = [] ->
        fst (scan_directory root listing) !! relative_path e = None)
  /\ snd (scan_directory root listing)
     = recorded_findings (fst (scan_directory root listing)).
Proof.
  intros Hvalid. split; [|split].
  - intros k v H.
    apply (scan_directory_lookup root listing Hvalid) in H
      as (e & _ & _ & _ & _ & Hne).
    exact Hne.
  - intros e Hin Hnone.
    destruct (fst (scan_directory root listing) !! relative_path e) eqn:E;
      [|reflexivity].
    apply (scan_directory_lookup root listing Hvalid) in E
      as (e' & Hin' & Hk & _ & Hv & Hne).
    assert (e' = e) as ->.
    { apply (valid_listing_same_entry listing); try assumption.
      destruct (valid_listing_entry _ _ Hvalid Hin).
      destruct (valid_listing_entry _ _ Hvalid Hin').
      apply relative_path_inj; assumption. }
    congruence.
  - apply scan_directory_total, Hvalid.
Qed.

Lemma scan_report_invariants_witness :
  valid_listing small_tree
  /\ snd (scan_directory root_proj small_tree) = 3%nat
  /\ snd (scan_directory root_proj small_tree)
     = recorded_findings (fst (scan_directory root_proj small_tree)).
Proof.
  split; [exact small_tree_valid|]. split; [vm_compute; reflexivity|].
  exact (proj2 (proj2 (scan_report_invariants root_proj small_tree
                         small_tree_valid))).
Defined.

(** C10: the excluded names are looked up in all the parts of the entry's
    path, those of the root included. When a part of the root is an
    excluded name, the loop body passes over every entry and
    [scan_directory] returns the empty mapping and the total 0, whatever
    the tree holds. *)
Theorem excluded_root_component_empties_scan
    (root : list string) (d : string) :
  In d skip_dirs -> In d root ->
  (forall (e : entry) acc, scan_entry root acc e = acc)
  /\ (forall listing : list entry,
        scan_directory root listing = (∅, 0%nat)).
Proof.
  intros Hd Hroot.
  assert (Hskip : forall (e : entry) acc, scan_entry root acc e = acc).
  { intros e acc. apply scan_entry_skip. left. intros (_ & Hex & _).
    apply (Hex d Hd). unfold parts. apply in_app_iff. left. exact Hroot. }
  split; [exact Hskip|].
  intros listing. apply scan_directory_all_skipped. intros e acc _.
  apply Hskip.
Qed.

Lemma excluded_root_component_empties_scan_witness :
  In "build"%string skip_dirs /\ In "build"%string root_under_build
  /\ scan_directory root_under_build small_tree = (∅, 0%nat).
Proof.
  assert (Hd : In "build"%string skip_dirs) by (cbn; tauto).
  assert (Hr : In "build"%string root_under_build) by (cbn; tauto).
  split; [exact Hd|]. split; [exact Hr|].
  exact (proj2 (excluded_root_component_empties_scan root_under_build
                  "build"%string Hd Hr) small_tree).
Defined.

(** With no excluded name among the parts of the root, looking the names up
    below the root only gives the same test. *)
Lemma eligible_below_root_iff (root : list string) (e : entry) :
  (forall d, In d skip_dirs -> ~ In d root) ->
  (eligible root e <-> eligible_below_root root e).
Proof.
  intros Hroot. unfold eligible, eligible_below_root, parts.
  split; intros (Hd & Hex & Hsuf); (split; [exact Hd|split; [|exact Hsuf]]);
    intros d Hin Hp.
  - apply (Hex d Hin), in_app_iff. right. exact Hp.
  - apply in_app_iff in Hp as [Hp|Hp];
      [exact (Hroot d Hin Hp)|exact (Hex d Hin Hp)].
Qed.

(** C2, as the code has it: the mapping holds the findings of an enumerated
    entry under its relative path exactly when the entry is not a
    directory, no part of its full path (the parts of the root, then those
    below the root) is an excluded name, its suffix is one of the seven
    extensions, and its scan found something. An entry that fails one of
    the three tests adds nothing to the result; so does the emoji-bearing
    [node_modules/pkg/index.js], under any root. The excluded names may be
    looked up below the root only when no part of the root is one of
    them. *)
Theorem walker_selects_by_full_path :
  (forall (root : list string) (listing : list entry) (e : entry)
          (fs : list finding),
      valid_listing listing -> In e listing ->
      (fst (scan_directory root listing) !! relative_path e = Some fs <->
       eligible root e /\ fs = find_emojis_in_file (file_read e)
       /\ fs <> []))
  /\ (forall (root : list string) (before after : list entry) (e : entry),
        ~ eligible root e ->
        scan_directory root (before ++ e :: after)
        = scan_directory root (before ++ after))
  /\ (forall (root : list string) (e : entry),
        (forall d, In d skip_dirs -> ~ In d root) ->
        (eligible root e <-> eligible_below_root root e))
  /\ find_emojis_in_file (file_read entry_node_modules) <> []
  /\ (forall (root : list string) (before after : list entry),
        scan_directory root (before ++ entry_node_modules :: after)
        = scan_directory root (before ++ after)).
Proof.
  split; [|split; [|split; [|split]]].
  - intros root listing e fs Hvalid Hin.
    rewrite (scan_directory_lookup root listing Hvalid). split.
    + intros (e' & Hin' & Hk & H).
      assert (e' = e) as ->; [|exact H].
      apply (valid_listing_same_entry listing); try assumption.
      destruct (valid_listing_entry _ _ Hvalid Hin).
      destruct (valid_listing_entry _ _ Hvalid Hin').
      apply relative_path_inj; assumption.
    + intros H. exists e. tauto.
  - intros root before after e Hno.
    apply scan_directory_skip, scan_entry_skip. left. exact Hno.
  - exact eligible_below_root_iff.
  - intros H. vm_compute in H. discriminate H.
  - intros root before after.
    apply scan_directory_skip, scan_entry_skip. left. intros (_ & Hex & _).
    apply (Hex "node_modules"%string); [cbn; tauto|].
    unfold parts. apply in_app_iff. right. cbn. tauto.
Qed.

Lemma walker_selects_by_full_path_witness :
  valid_listing small_tree /\ In entry_css small_tree
  /\ fst (scan_directory root_proj small_tree) !! relative_path entry_css
     = Some (find_emojis_in_file (file_read entry_css))
  /\ eligible root_proj entry_css.
Proof.
  assert (Hin : In entry_css small_tree) by (cbn; tauto).
  assert (Hl : fst (scan_directory root_proj small_tree)
               !! relative_path entry_css
               = Some (find_emojis_in_file (file_read entry_css)))
    by (vm_compute; reflexivity).
  split; [exact small_tree_valid|]. split; [exact Hin|].
  split; [exact Hl|].
  exact (proj1 (proj1 (proj1 walker_selects_by_full_path root_proj
                         small_tree entry_css _ small_tree_valid Hin) Hl)).
Defined.

(** C2 as stated (excluded names looked up in the path below the root)
    fails under [root_under_build]: [a.js] is a file with a selected
    extension and an emoji, no part of its path below the root is an
    excluded name, and yet the walk records nothing. *)
Lemma relative_components_counterexample :
  valid_listing [entry_a_js]
  /\ In entry_a_js [entry_a_js]
  /\ eligible_below_root root_under_build entry_a_js
  /\ find_emojis_in_file (file_read entry_a_js) <> []
  /\ fst (scan_directory root_under_build [entry_a_js])
     !! relative_path entry_a_js = None
  /\ scan_directory root_under_build [entry_a_js] = (∅, 0%nat).
Proof.
  split; [solve_valid_listing|]. split; [cbn; tauto|]. split.
  { unfold eligible_below_root. split; [reflexivity|]. split.
    - intros d Hd Hp. cbn in Hp. destruct Hp as [<-|[]].
      cbn in Hd. intuition discriminate.
    - vm_compute. tauto. }
  split; [intros H; vm_compute in H; discriminate H|].
  split; vm_compute; reflexivity.
Qed.

(** ** Regression examples *)

(** Blanks are allowed around the dot and before the parenthesis. *)
Example finditer_spaced :
  finditer (codes "console . warn  (y") = [(0, 17)%nat].
Proof. vm_compute. reflexivity. Qed.

(** Other methods of [console] are not matched; two calls on one line give
    two matches. *)
Example finditer_two_calls :
  finditer (codes "console.table(a); console.log(b); console.info(c)")
  = [(18, 30)%nat; (34, 47)%nat].
Proof. vm_compute. reflexivity. Qed.

(** An emoji in a string outside any console call is reported, with the
    whole (short) line as its context. *)
Example finding_outside_console :
  find_emojis_in_file
    (Text (codes "const x = " ++ [double_quote; grinning_face; double_quote]
           ++ codes ";"))
  = [mk_finding 1 12 grinning_face
       (codes "const x = " ++ [double_quote; grinning_face; double_quote]
        ++ codes ";")].
Proof. vm_compute. reflexivity. Qed.

(** An emoji in the string argument of a closed console call is not. *)
Example finding_inside_console :
  find_emojis_in_file
    (Text (codes "console.log(" ++ [double_quote] ++ codes "hi "
           ++ [grinning_face] ++ codes " there" ++ [double_quote]
           ++ codes ")"))
  = [].
Proof. vm_compute. reflexivity. Qed.

(** Two files with one emoji each: two keys, total 2. *)
Example two_files_two_findings :
  let listing :=
    [ mk_entry ["a.js"]%string false (Text [grinning_face]);
      mk_entry ["a.css"]%string false (Text [grinning_face]) ] in
  snd (scan_directory root_proj listing) = 2%nat
  /\ size (fst (scan_directory root_proj listing)) = 2%nat.
Proof. split; vm_compute; reflexivity. Qed.

(** * Further properties *)

(** ** Stripping *)

Lemma is_emoji_range (c : Z) :
  is_emoji c = true -> 0x2190 <= c <= 0x1FAFF.
Proof.
  unfold is_emoji, code_in, common_symbols, math_symbols. cbn [existsb]. lia.
Qed.

Lemma is_emoji_not_space (c : Z) : is_emoji c = true -> isspace c = false.
Proof.
  unfold is_emoji, isspace, code_in, common_symbols, math_symbols.
  cbn [existsb]. lia.
Qed.

Lemma lstrip_app_blank (ws l : list Z) :
  blank ws -> lstrip (ws ++ l) = lstrip l.
Proof.
  induction 1 as [|c ws Hc _ IH]; [reflexivity|].
  simpl. rewrite Hc. exact IH.
Qed.

Lemma lstrip_split (l : list Z) :
  exists ws, blank ws /\ l = ws ++ lstrip l.
Proof.
  induction l as [|c l (ws & Hws & IH)]; simpl.
  - exists []. split; [constructor|reflexivity].
  - destruct (isspace c) eqn:E.
    + exists (c :: ws). split; [constructor; assumption|].
      simpl. f_equal. exact IH.
    + exists []. split; [constructor|reflexivity].
Qed.

(** What [lstrip] does to a concatenation. *)
Lemma lstrip_app (l k : list Z) :
  lstrip (l ++ k)
  = match lstrip l with [] => lstrip k | _ :: _ => lstrip l ++ k end.
Proof.
  induction l as [|c l IH]; simpl; [destruct (lstrip k); reflexivity|].
  destruct (isspace c); [exact IH|reflexivity].
Qed.

Lemma lstrip_head (l : list Z) (c : Z) (t : list Z) :
  lstrip l = c :: t -> isspace c = false.
Proof.
  induction l as [|x l IH]; simpl; [discriminate|].
  destruct (isspace x) eqn:E; [exact IH|].
  intros [= <- _]. exact E.
Qed.

Lemma lstrip_fixed (c : Z) (t : list Z) :
  isspace c = false -> lstrip (c :: t) = c :: t.
Proof. intros H. simpl. rewrite H. reflexivity. Qed.

Lemma lstrip_idem (l : list Z) : lstrip (lstrip l) = lstrip l.
Proof.
  destruct (lstrip l) as [|c t] eqn:E; [reflexivity|].
  apply lstrip_fixed, (lstrip_head l c t E).
Qed.

Lemma rstrip_app_blank (l ws : list Z) :
  blank ws -> rstrip (l ++ ws) = rstrip l.
Proof.
  intros H. unfold rstrip. rewrite rev_app_distr, lstrip_app_blank.
  - reflexivity.
  - apply List.Forall_rev, H.
Qed.

Lemma rstrip_cons (c : Z) (t : list Z) :
  isspace c = false -> rstrip (c :: t) = c :: rstrip t.
Proof.
  intros H. unfold rstrip. cbn [rev]. rewrite lstrip_app.
  destruct (lstrip (rev t)) as [|x r] eqn:E.
  - cbn. rewrite H. reflexivity.
  - rewrite rev_app_distr. reflexivity.
Qed.

Lemma rstrip_idem (l : list Z) : rstrip (rstrip l) = rstrip l.
Proof.
  unfold rstrip. rewrite rev_involutive, lstrip_idem. reflexivity.
Qed.

Lemma strip_idem (l : list Z) : strip (strip l) = strip l.
Proof.
  unfold strip. destruct (lstrip l) as [|c t] eqn:E; [reflexivity|].
  pose proof (lstrip_head l c t E) as Hc.
  rewrite (rstrip_cons c t Hc), (lstrip_fixed c _ Hc), <- (rstrip_cons c t Hc).
  apply rstrip_idem.
Qed.

Lemma lstrip_length (l : list Z) : (length (lstrip l) <= length l)%nat.
Proof.
  induction l as [|c l IH]; simpl; [lia|].
  destruct (isspace c); simpl; lia.
Qed.

Lemma strip_length (l : list Z) : (length (strip l) <= length l)%nat.
Proof.
  unfold strip, rstrip. rewrite length_rev.
  pose proof (lstrip_length (rev (lstrip l))) as H1.
  rewrite length_rev in H1. pose proof (lstrip_length l). lia.
Qed.

Lemma lstrip_keeps (l : list Z) (c : Z) :
  In c l -> isspace c = false -> In c (lstrip l).
Proof.
  intros Hin Hc. induction l as [|x l IH]; [contradiction|].
  simpl. destruct (isspace x) eqn:E; [|exact Hin].
  destruct Hin as [->|Hin]; [congruence|exact (IH Hin)].
Qed.

Lemma strip_keeps (l : list Z) (c : Z) :
  In c l -> isspace c = false -> In c (strip l).
Proof.
  intros Hin Hc. unfold strip, rstrip.
  apply in_rev. rewrite rev_involutive.
  apply lstrip_keeps; [|exact Hc].
  apply in_rev. rewrite rev_involutive.
  apply lstrip_keeps; assumption.
Qed.

(** Blanks around a text do not change its stripped form. *)
Lemma strip_blank_around (ws1 l ws2 : list Z) :
  blank ws1 -> blank ws2 -> strip (ws1 ++ l ++ ws2) = strip l.
Proof.
  intros H1 H2. unfold strip. rewrite (lstrip_app_blank ws1 _ H1), lstrip_app.
  destruct (lstrip l) as [|c t] eqn:E.
  - destruct (lstrip_split ws2) as (ws & Hws & Heq).
    assert (Hb : blank (lstrip ws2)).
    { unfold blank in *. rewrite Heq in H2.
      apply Forall_app in H2 as [_ H2]. exact H2. }
    destruct (lstrip ws2) as [|x r] eqn:E2; [reflexivity|].
    apply lstrip_head in E2. apply Forall_inv in Hb. congruence.
  - apply rstrip_app_blank, H2.
Qed.

(** ** What the file scanner reports *)

(** The findings of the characters [chars] read from column [col_num] on:
    one for each emoji among them that is not suppressed. *)
Lemma scan_chars_In (line : list Z) (line_num : nat) (chars : list Z) :
  forall (col_num : nat) (f : finding),
    In f (scan_chars line line_num col_num chars) <->
    exists (j : nat) (c : Z),
      chars !! j = Some c /\ is_emoji c = true
      /\ is_in_console_log line (col_num + j - 1) = false
      /\ f = mk_finding line_num (col_num + j) c
               (context_of line (col_num + j)).
Proof.
  induction chars as [|a chars IH]; intros col f; cbn [scan_chars].
  - split; [contradiction|]. intros (j & c & Hj & _). discriminate.
  - assert (Hlater :
      In f (scan_chars line line_num (S col) chars) <->
      exists (j : nat) (c : Z),
        (a :: chars) !! S j = Some c /\ is_emoji c = true
        /\ is_in_console_log line (col + S j - 1) = false
        /\ f = mk_finding line_num (col + S j) c
                 (context_of line (col + S j))).
    { rewrite IH. split; intros (j & c & Hj & He & Hs & Hf); exists j, c;
        cbn [lookup list_lookup] in *;
        replace (col + S j)%nat with (S col + j)%nat in * by lia; auto. }
    assert (Hsplit : forall P : nat -> Z -> Prop,
      (exists j c, P j c) <-> (exists c, P 0%nat c) \/ (exists j c, P (S j) c)).
    { intros P. split.
      - intros ([|j] & c & H); [left|right]; eauto.
      - intros [(c & H)|(j & c & H)]; eauto. }
    rewrite (Hsplit (fun j c => _ /\ _ /\ _ /\ _)), <- Hlater.
    replace (col + 0)%nat with col by lia. cbn [lookup list_lookup].
    destruct (is_emoji a) eqn:Ee;
      [destruct (is_in_console_log line (col - 1)) eqn:Es|].
    + split; [tauto|]. intros [(c & [= <-] & _ & Hs & _)|H]; [|exact H].
      congruence.
    + cbn [In]. split.
      * intros [<-|H]; [left; exists a; auto|right; exact H].
      * intros [(c & [= <-] & _ & _ & ->)|H];
          [left; reflexivity|right; exact H].
    + split; [tauto|]. intros [(c & [= <-] & He & _)|H]; [|exact H].
      congruence.
Qed.

Lemma scan_lines_In (lines : list (list Z)) :
  forall (line_num : nat) (f : finding),
    In f (scan_lines line_num lines) <->
    exists (i : nat) (line : list Z),
      lines !! i = Some line /\ is_comment_line line = false
      /\ In f (scan_chars line (line_num + i) 1 line).
Proof.
  induction lines as [|l lines IH]; intros n f; cbn [scan_lines].
  - split; [contradiction|]. intros (i & line & Hi & _). discriminate.
  - rewrite in_app_iff, IH. split.
    + intros [H|(i & line & Hi & Hc & Hf)].
      * destruct (is_comment_line l) eqn:E; [contradiction|].
        exists 0%nat, l. replace (n + 0)%nat with n by lia. auto.
      * exists (S i), line.
        replace (n + S i)%nat with (S n + i)%nat by lia. auto.
    + intros ([|i] & line & Hi & Hc & Hf).
      * injection Hi as ->. rewrite Hc. left.
        replace (n + 0)%nat with n in Hf by lia. exact Hf.
      * right. exists i, line.
        replace (n + S i)%nat with (S n + i)%nat in Hf by lia. auto.
Qed.

(** X1: every finding of a file points at an emoji of the text: its line
    number and column (both counted from 1) designate a character of a line
    of the text, that character is the one recorded, it is an emoji, the
    line is not a comment line, the offset is not suppressed, and the
    context is the one computed for that column. *)
Theorem finding_sound (content : list Z) (f : finding) :
  In f (find_emojis_in_file (Text content)) ->
  exists line : list Z,
    split_lines content !! (f_line f - 1)%nat = Some line
    /\ (1 <= f_line f)%nat
    /\ (1 <= f_column f <= length line)%nat
    /\ line !! (f_column f - 1)%nat = Some (f_emoji f)
    /\ is_emoji (f_emoji f) = true
    /\ is_comment_line line = false
    /\ is_in_console_log line (f_column f - 1) = false
    /\ f_context f = context_of line (f_column f).
Proof.
  unfold find_emojis_in_file. cbn [app]. intros H.
  apply scan_lines_In in H as (i & line & Hi & Hc & H).
  apply scan_chars_In in H as (j & c & Hj & He & Hs & ->).
  exists line. cbn [f_line f_column f_emoji f_context].
  replace (1 + i - 1)%nat with i by lia.
  replace (1 + j - 1)%nat with j in * by lia.
  pose proof (lookup_lt_Some _ _ _ Hj).
  repeat split; auto; lia.
Qed.

Lemma finding_sound_witness :
  In (mk_finding 2 1 grinning_face [grinning_face])
     (find_emojis_in_file (Text two_line_content))
  /\ exists line : list Z,
       split_lines two_line_content !! 1%nat = Some line
       /\ line !! 0%nat = Some grinning_face.
Proof.
  assert (H : In (mk_finding 2 1 grinning_face [grinning_face])
                (find_emojis_in_file (Text two_line_content)))
    by (vm_compute; left; reflexivity).
  split; [exact H|].
  destruct (finding_sound two_line_content _ H)
    as (line & Hl & _ & _ & Hc & _).
  exists line. split; [exact Hl|exact Hc].
Defined.

(** X2: conversely, every emoji of a line that is not a comment line, at an
    offset that is not suppressed, is reported, with its line number and
    column counted from 1. *)
Theorem unsuppressed_emoji_reported
    (content : list Z) (i j : nat) (line : list Z) (c : Z) :
  split_lines content !! i = Some line ->
  line !! j = Some c ->
  is_emoji c = true ->
  is_comment_line line = false ->
  is_in_console_log line j = false ->
  In (mk_finding (S i) (S j) c (context_of line (S j)))
     (find_emojis_in_file (Text content)).
Proof.
  intros Hi Hj He Hc Hs. unfold find_emojis_in_file. cbn [app].
  apply scan_lines_In. exists i, line. split; [exact Hi|]. split; [exact Hc|].
  apply scan_chars_In. exists j, c.
  replace (1 + j - 1)%nat with j by lia. auto.
Qed.

Lemma unsuppressed_emoji_reported_witness :
  In (mk_finding 2 1 grinning_face (context_of [grinning_face] 1))
     (find_emojis_in_file (Text two_line_content)).
Proof.
  apply (unsuppressed_emoji_reported two_line_content 1 0 [grinning_face]
           grinning_face); vm_compute; reflexivity.
Defined.

Lemma StronglySorted_app_intro {A} (R : A -> A -> Prop) (l1 l2 : list A) :
  StronglySorted R l1 -> StronglySorted R l2 ->
  (forall x y, In x l1 -> In y l2 -> R x y) ->
  StronglySorted R (l1 ++ l2).
Proof.
  induction 1 as [|x l1 Hs IH Hall]; intros H2 Hx; [exact H2|].
  cbn [app]. constructor.
  - apply IH; [exact H2|]. intros a b Ha Hb. apply Hx; [right|]; assumption.
  - apply Forall_app. split; [exact Hall|].
    apply List.Forall_forall. intros y Hy.
    apply Hx; [left; reflexivity|exact Hy].
Qed.

Lemma scan_chars_column (line : list Z) (line_num col_num : nat)
    (chars : list Z) (f : finding) :
  In f (scan_chars line line_num col_num chars) ->
  f_line f = line_num /\ (col_num <= f_column f)%nat.
Proof.
  intros H. apply scan_chars_In in H as (j & c & _ & _ & _ & ->).
  cbn. lia.
Qed.

Lemma scan_chars_sorted (line : list Z) (line_num : nat) (chars : list Z) :
  forall col_num,
    StronglySorted finding_lt (scan_chars line line_num col_num chars).
Proof.
  induction chars as [|a chars IH]; intros col; cbn [scan_chars];
    [constructor|].
  destruct (is_emoji a); [|apply IH].
  destruct (is_in_console_log line (col - 1)); [apply IH|].
  constructor; [apply IH|].
  apply List.Forall_forall. intros g Hg.
  apply scan_chars_column in Hg as [Hl Hcol].
  right. cbn. split; [congruence|lia].
Qed.

Lemma scan_lines_sorted (lines : list (list Z)) :
  forall line_num, StronglySorted finding_lt (scan_lines line_num lines).
Proof.
  induction lines as [|l lines IH]; intros n; cbn [scan_lines];
    [constructor|].
  apply StronglySorted_app_intro; [|apply IH|].
  - destruct (is_comment_line l); [constructor|apply scan_chars_sorted].
  - intros x y Hx Hy.
    destruct (is_comment_line l); [contradiction|].
    apply scan_chars_column in Hx as [Hx _].
    apply scan_lines_origin in Hy as (i & _ & _ & _ & Hy).
    left. lia.
Qed.

(** X3: the findings of a file come in scan order, strictly increasing by
    line and then by column; so no position is reported twice. *)
Theorem findings_in_scan_order (file : read_result) :
  StronglySorted finding_lt (find_emojis_in_file file)
  /\ NoDup (find_emojis_in_file file).
Proof.
  assert (Hs : StronglySorted finding_lt (find_emojis_in_file file)).
  { destruct file as [content|e]; cbn; [apply scan_lines_sorted|constructor]. }
  split; [exact Hs|].
  induction Hs as [|f l _ IH Hall]; constructor; [|exact IH].
  intros Hin. apply list_elem_of_In in Hin.
  pose proof (proj1 (List.Forall_forall _ _) Hall f Hin) as Hlt.
  unfold finding_lt in Hlt. lia.
Qed.

(** ** Contexts *)

Lemma In_slice (line : list Z) (start end_ i : nat) (c : Z) :
  line !! i = Some c -> (start <= i < end_)%nat ->
  In c (slice line start end_).
Proof.
  intros Hi Hb. unfold slice. apply list_elem_of_In.
  apply list_elem_of_lookup. exists (i - start)%nat.
  rewrite lookup_take_lt by lia. rewrite lookup_drop.
  replace (start + (i - start))%nat with i by lia. exact Hi.
Qed.

Lemma slice_length (line : list Z) (start end_ : nat) :
  (length (slice line start end_) <= end_ - start)%nat.
Proof. unfold slice. rewrite length_take. lia. Qed.

(** X4: the context recorded with a finding contains the emoji itself, is
    at most 40 characters long (19 before the emoji, 20 after) and has no
    blank at either end. *)
Theorem context_around_emoji (content : list Z) (f : finding) :
  In f (find_emojis_in_file (Text content)) ->
  In (f_emoji f) (f_context f)
  /\ (length (f_context f) <= 40)%nat
  /\ strip (f_context f) = f_context f.
Proof.
  intros H. unfold find_emojis_in_file in H. cbn [app] in H.
  apply scan_lines_In in H as (i & line & _ & _ & H).
  apply scan_chars_In in H as (j & c & Hj & He & _ & ->).
  cbn [f_emoji f_context]. unfold context_of.
  split; [|split].
  - apply strip_keeps; [|apply is_emoji_not_space, He].
    apply (In_slice line _ _ j c Hj).
    pose proof (lookup_lt_Some _ _ _ Hj). lia.
  - pose proof (strip_length
        (slice line (1 + j - 20) (Nat.min (length line) (1 + j + 20)))).
    pose proof (slice_length line (1 + j - 20)
                  (Nat.min (length line) (1 + j + 20))).
    lia.
  - apply strip_idem.
Qed.

Lemma context_around_emoji_witness :
  In grinning_face
    (f_context (mk_finding 2 1 grinning_face [grinning_face])).
Proof.
  assert (H : In (mk_finding 2 1 grinning_face [grinning_face])
                (find_emojis_in_file (Text two_line_content)))
    by (vm_compute; left; reflexivity).
  exact (proj1 (context_around_emoji two_line_content _ H)).
Defined.

(** ** Lines *)

Lemma split_lines_nonempty (content : list Z) : split_lines content <> [].
Proof.
  induction content as [|c t IH]; cbn [split_lines]; [discriminate|].
  destruct (c =? 0x0A); [discriminate|].
  destruct (split_lines t); discriminate.
Qed.

Lemma split_lines_app (a b : list Z) :
  split_lines (a ++ 0x0A :: b) = split_lines a ++ split_lines b.
Proof.
  induction a as [|c a IH]; [reflexivity|].
  cbn [app split_lines]. rewrite IH.
  destruct (c =? 0x0A); [reflexivity|].
  pose proof (split_lines_nonempty a).
  destruct (split_lines a) as [|cur rest]; [contradiction|reflexivity].
Qed.

Lemma join_lines_cons (line : list Z) (lines : list (list Z)) :
  lines <> [] ->
  join_lines (line :: lines) = line ++ 0x0A :: join_lines lines.
Proof. destruct lines; [contradiction|reflexivity]. Qed.

(** X5: splitting a text into lines loses nothing: joining the lines with
    newlines gives the text back, no line contains a newline, and there is
    one more line than there are newlines (so always at least one). *)
Theorem split_lines_round_trip (content : list Z) :
  join_lines (split_lines content) = content
  /\ Forall (fun line => ~ In 0x0A line) (split_lines content)
  /\ length (split_lines content) = S (count_occ Z.eq_dec content 0x0A).
Proof.
  induction content as [|c t (IHj & IHn & IHl)].
  - cbn. split; [reflexivity|]. split; [|reflexivity].
    constructor; [intros []|constructor].
  - cbn [split_lines]. destruct (Z.eqb_spec c 0x0A) as [->|Hc].
    + split; [|split].
      * rewrite join_lines_cons by apply split_lines_nonempty.
        rewrite IHj. reflexivity.
      * constructor; [intros []|exact IHn].
      * cbn [length]. rewrite IHl.
        rewrite count_occ_cons_eq by reflexivity. reflexivity.
    + pose proof (split_lines_nonempty t) as Hne.
      destruct (split_lines t) as [|cur rest]; [contradiction|].
      split; [|split].
      * rewrite <- IHj. destruct rest; reflexivity.
      * apply Forall_cons in IHn as [Hcur Hrest].
        constructor; [|exact Hrest].
        intros [Heq|Hin]; [congruence|exact (Hcur Hin)].
      * cbn [length] in *. rewrite IHl.
        rewrite count_occ_cons_neq by congruence. reflexivity.
Qed.

Lemma scan_chars_shift (k : nat) (line : list Z) (line_num : nat)
    (chars : list Z) :
  forall col_num,
    scan_chars line (k + line_num) col_num chars
    = map (shift_line k) (scan_chars line line_num col_num chars).
Proof.
  induction chars as [|a chars IH]; intros col; cbn [scan_chars];
    [reflexivity|].
  destruct (is_emoji a); [|apply IH].
  destruct (is_in_console_log line (col - 1)); [apply IH|].
  cbn [map]. rewrite IH. reflexivity.
Qed.

Lemma scan_lines_shift (k : nat) (lines : list (list Z)) :
  forall line_num,
    scan_lines (k + line_num) lines
    = map (shift_line k) (scan_lines line_num lines).
Proof.
  induction lines as [|l lines IH]; intros n; cbn [scan_lines];
    [reflexivity|].
  rewrite map_app, <- IH.
  replace (S (k + n)) with (k + S n)%nat by lia.
  destruct (is_comment_line l); [reflexivity|].
  rewrite scan_chars_shift. reflexivity.
Qed.

Lemma scan_lines_app (l1 l2 : list (list Z)) :
  forall line_num,
    scan_lines line_num (l1 ++ l2)
    = scan_lines line_num l1 ++ scan_lines (length l1 + line_num) l2.
Proof.
  induction l1 as [|l l1 IH]; intros n; cbn [app scan_lines length];
    [reflexivity|].
  rewrite IH, <- app_assoc.
  replace (length l1 + S n)%nat with (S (length l1) + n)%nat by lia.
  reflexivity.
Qed.

(** X6: lines are scanned independently of each other: the findings of a
    text [a], a newline, and a text [b] are the findings of [a] followed by
    the findings of [b] moved down by the number of lines of [a]. (A console
    call left open at the end of a line suppresses nothing on the next
    line.) *)
Theorem findings_of_concatenation (a b : list Z) :
  find_emojis_in_file (Text (a ++ 0x0A :: b))
  = find_emojis_in_file (Text a)
    ++ map (shift_line (length (split_lines a)))
         (find_emojis_in_file (Text b)).
Proof.
  unfold find_emojis_in_file. cbn [app].
  rewrite split_lines_app, scan_lines_app, scan_lines_shift. reflexivity.
Qed.

Lemma scan_chars_count (line : list Z) (line_num : nat) (chars : list Z) :
  forall col_num,
    (length (scan_chars line line_num col_num chars) <= count_emoji chars)%nat.
Proof.
  unfold count_emoji.
  induction chars as [|a chars IH]; intros col; cbn [scan_chars List.filter];
    [reflexivity|].
  specialize (IH (S col)).
  destruct (is_emoji a); [|exact IH].
  destruct (is_in_console_log line (col - 1)); cbn [length]; lia.
Qed.

Lemma scan_lines_count (lines : list (list Z)) :
  forall line_num,
    (length (scan_lines line_num lines) <= count_emoji (concat lines))%nat.
Proof.
  induction lines as [|l lines IH]; intros n; cbn [scan_lines concat];
    [reflexivity|].
  unfold count_emoji in *. rewrite length_app, List.filter_app, length_app.
  specialize (IH (S n)).
  pose proof (scan_chars_count l n l 1%nat) as Hl. unfold count_emoji in Hl.
  destruct (is_comment_line l); cbn [length]; lia.
Qed.

Lemma count_emoji_split_lines (content : list Z) :
  count_emoji (concat (split_lines content)) = count_emoji content.
Proof.
  unfold count_emoji.
  induction content as [|c t IH]; [reflexivity|].
  cbn [split_lines]. destruct (Z.eqb_spec c 0x0A) as [->|Hc].
  - cbn [concat app]. rewrite IH. reflexivity.
  - destruct (split_lines t) as [|cur rest]; cbn [concat app List.filter] in *;
      destruct (is_emoji c); cbn [length]; rewrite <- IH; reflexivity.
Qed.

(** X7: a file has at most as many findings as its text has emoji
    characters; a text without emoji has none. *)
Theorem findings_bounded_by_emoji (content : list Z) :
  (length (find_emojis_in_file (Text content)) <= count_emoji content)%nat
  /\ (Forall (fun c => is_emoji c = false) content ->
      find_emojis_in_file (Text content) = []).
Proof.
  assert (Hle : (length (find_emojis_in_file (Text content))
                 <= count_emoji content)%nat).
  { unfold find_emojis_in_file. cbn [app].
    rewrite <- count_emoji_split_lines. apply scan_lines_count. }
  split; [exact Hle|].
  intros Hnone.
  assert (Hz : count_emoji content = 0%nat).
  { unfold count_emoji. clear Hle.
    induction Hnone as [|c t Hc _ IH]; [reflexivity|].
    cbn [List.filter]. rewrite Hc. exact IH. }
  destruct (find_emojis_in_file (Text content)); [reflexivity|].
  cbn [length] in Hle. lia.
Qed.

Lemma findings_bounded_by_emoji_witness :
  Forall (fun c => is_emoji c = false) (codes "let x = 1;")
  /\ find_emojis_in_file (Text (codes "let x = 1;")) = [].
Proof.
  assert (H : Forall (fun c => is_emoji c = false) (codes "let x = 1;"))
    by (repeat constructor).
  split; [exact H|].
  exact (proj2 (findings_bounded_by_emoji (codes "let x = 1;")) H).
Defined.

(** X8: whether a line is skipped as a comment does not depend on the
    blanks before and after it. *)
Theorem comment_test_ignores_blanks (ws1 line ws2 : list Z) :
  blank ws1 -> blank ws2 ->
  is_comment_line (ws1 ++ line ++ ws2) = is_comment_line line.
Proof.
  intros H1 H2. unfold is_comment_line.
  rewrite (strip_blank_around ws1 line ws2 H1 H2). reflexivity.
Qed.

Lemma comment_test_ignores_blanks_witness :
  blank (codes "  ") /\ blank [0x09]
  /\ is_comment_line (codes "  " ++ line_comment ++ [0x09]) = true.
Proof.
  assert (H1 : blank (codes "  ")) by (repeat constructor).
  assert (H2 : blank [0x09]) by (repeat constructor).
  split; [exact H1|]. split; [exact H2|].
  rewrite (comment_test_ignores_blanks (codes "  ") line_comment [0x09] H1 H2).
  vm_compute. reflexivity.
Defined.

(** ** What the console pattern matches *)

Lemma star_match_sound {A} (p : Z -> bool) (l : list Z)
    (k : list Z -> option A) (res : A) :
  star_match p l k = Some res ->
  exists w rest,
    l = w ++ rest /\ Forall (fun c => p c = true) w /\ k rest = Some res.
Proof.
  induction l as [|c t IH]; cbn [star_match]; intros H.
  - exists [], []. auto.
  - destruct (p c) eqn:Ep; [|exists [], (c :: t); auto].
    destruct (star_match p t k) as [r|] eqn:E; [|exists [], (c :: t); auto].
    injection H as ->.
    destruct (IH eq_refl) as (w & rest & -> & Hw & Hk).
    exists (c :: w), rest. auto.
Qed.

(** A successful match consumed a word of the expression. *)
Lemma re_match_sound {A} (r : regex) :
  forall (l : list Z) (k : list Z -> option A) (res : A),
    re_match r l k = Some res ->
    exists w rest, l = w ++ rest /\ lang r w /\ k rest = Some res.
Proof.
  induction r as [|c|a IHa b IHb|a IHa b IHb|p]; cbn [re_match lang];
    intros l k res H.
  - exists [], l. auto.
  - destruct l as [|x t]; [discriminate|].
    destruct (Z.eqb_spec x c) as [->|]; [|discriminate].
    exists [c], t. auto.
  - apply IHa in H as (u & l1 & -> & Hu & H).
    apply IHb in H as (v & rest & -> & Hv & H).
    exists (u ++ v), rest. rewrite <- app_assoc. eauto 10.
  - destruct (re_match a l k) as [r|] eqn:E.
    + injection H as ->. apply IHa in E as (w & rest & ? & ? & ?).
      exists w, rest. auto.
    + apply IHb in H as (w & rest & ? & ? & ?). exists w, rest. auto.
  - apply star_match_sound, H.
Qed.

Lemma lang_literal (cs w : list Z) :
  lang (fold_right (fun c r => Seq (Lit c) r) Eps cs) w <-> w = cs.
Proof.
  revert w. induction cs as [|c cs IH]; intros w; cbn [fold_right lang].
  - reflexivity.
  - split.
    + intros (u & v & -> & -> & Hv). apply IH in Hv. subst v. reflexivity.
    + intros ->. exists [c], cs. rewrite IH. auto.
Qed.

Lemma lang_console_pattern (w : list Z) :
  lang console_pattern w -> console_call_text w.
Proof.
  unfold console_pattern, ws. cbn [lang].
  intros (u1 & v1 & -> & H1 & u2 & v2 & -> & H2 & u3 & v3 & -> & -> &
          u4 & v4 & -> & H4 & u5 & v5 & -> & H5 & u6 & v6 & -> & H6 & ->).
  apply lang_literal in H1. subst u1.
  assert (Hm : exists m, In m console_methods /\ u5 = codes m).
  { unfold console_methods. cbn [In].
    destruct H5 as [H|[H|[H|[H|H]]]]; apply lang_literal in H;
      [exists "log"%string|exists "warn"%string|exists "error"%string
      |exists "info"%string|exists "debug"%string]; tauto. }
  destruct Hm as (m & Hm & ->).
  exists u2, u4, u6, m. auto 10.
Qed.

Lemma re_match_literal {A} (cs l : list Z) (k : list Z -> option A) :
  re_match (fold_right (fun c r => Seq (Lit c) r) Eps cs) (cs ++ l) k = k l.
Proof.
  induction cs as [|c cs IH]; cbn [fold_right app re_match]; [reflexivity|].
  rewrite Z.eqb_refl. exact IH.
Qed.

(** Blanks followed by a character that is not a blank: the greedy star
    takes the blanks and hands over the rest. *)
Lemma star_match_blank {A} (ws : list Z) (x : Z) (t : list Z)
    (k : list Z -> option A) (res : A) :
  blank ws -> isspace x = false -> k (x :: t) = Some res ->
  star_match isspace (ws ++ x :: t) k = Some res.
Proof.
  intros Hws Hx Hk.
  induction Hws as [|c ws Hc _ IH]; cbn [app star_match].
  - rewrite Hx. exact Hk.
  - rewrite Hc, IH. reflexivity.
Qed.

Lemma re_match_methods {A} (m : string) (l : list Z)
    (k : list Z -> option A) :
  In m console_methods ->
  re_match (Alt (word "log") (Alt (word "warn") (Alt (word "error")
              (Alt (word "info") (word "debug")))))
    (codes m ++ l) k
  = k l.
Proof.
  unfold console_methods. cbn [In].
  intros [<-|[<-|[<-|[<-|[<-|[]]]]]]; cbn; destruct (k l); reflexivity.
Qed.

Lemma method_head (m : string) :
  In m console_methods ->
  exists x t, codes m = x :: t /\ isspace x = false /\ ~ In 0x63 (codes m).
Proof.
  unfold console_methods. cbn [In].
  intros [<-|[<-|[<-|[<-|[<-|[]]]]]]; cbn; eexists _, _;
    (split; [reflexivity|split; [reflexivity|lia]]).
Qed.

Lemma re_match_Seq {A} (a b : regex) (l : list Z) (k : list Z -> option A) :
  re_match (Seq a b) l k = re_match a l (fun l' => re_match b l' k).
Proof. reflexivity. Qed.

Lemma re_match_Lit {A} (c : Z) (t : list Z) (k : list Z -> option A) :
  re_match (Lit c) (c :: t) k = k t.
Proof. cbn [re_match]. rewrite Z.eqb_refl. reflexivity. Qed.

Lemma re_match_ws {A} (l : list Z) (k : list Z -> option A) :
  re_match ws l k = star_match isspace l k.
Proof. reflexivity. Qed.

Lemma console_match_complete (w rest : list Z) :
  console_call_text w -> console_match (w ++ rest) = Some (length w).
Proof.
  intros (ws1 & ws2 & ws3 & m & H1 & H2 & H3 & Hm & ->).
  destruct (method_head m Hm) as (x & t & Hx & Hsp & _).
  unfold console_match, console_pattern.
  set (k := fun rest0 : list Z => Some (_ - length rest0)%nat).
  assert (Hend : k rest = Some (length (codes "console" ++ ws1 ++ [0x2E]
                   ++ ws2 ++ codes m ++ ws3 ++ [lparen]))).
  { unfold k. f_equal. rewrite !length_app. lia. }
  remember (length (codes "console" ++ ws1 ++ [0x2E] ++ ws2 ++ codes m
                    ++ ws3 ++ [lparen])) as n eqn:Hn.
  clear Hn. rewrite <- !app_assoc. cbn [app].
  rewrite re_match_Seq. unfold word at 1. rewrite re_match_literal.
  rewrite re_match_Seq, re_match_ws.
  apply star_match_blank; [exact H1|reflexivity|]. cbv beta.
  rewrite re_match_Seq, re_match_Lit.
  rewrite re_match_Seq, re_match_ws.
  rewrite Hx. cbn [app].
  apply star_match_blank; [exact H2|exact Hsp|]. cbv beta.
  rewrite app_comm_cons, <- Hx.
  rewrite re_match_Seq, (re_match_methods m _ _ Hm).
  rewrite re_match_Seq, re_match_ws.
  apply star_match_blank; [exact H3|reflexivity|]. cbv beta.
  rewrite re_match_Lit. exact Hend.
Qed.

Lemma console_match_spec (l : list Z) (n : nat) :
  console_match l = Some n <->
  exists w rest, l = w ++ rest /\ console_call_text w /\ n = length w.
Proof.
  split.
  - unfold console_match. intros H.
    apply re_match_sound in H as (w & rest & -> & Hw & H).
    injection H as <-. exists w, rest.
    split; [reflexivity|]. split; [apply lang_console_pattern, Hw|].
    rewrite length_app. lia.
  - intros (w & rest & -> & Hw & ->). apply console_match_complete, Hw.
Qed.

(** X9: the pattern matches at the head of a text exactly when the text
    begins with the word [console], blanks, a dot, blanks, one of [log],
    [warn], [error], [info], [debug], blanks and an opening parenthesis; the
    match is that prefix. *)
Theorem console_match_iff (l : list Z) (n : nat) :
  console_match l = Some n <->
  exists w rest, l = w ++ rest /\ console_call_text w /\ n = length w.
Proof. apply console_match_spec. Qed.

(** ** The matches [finditer] yields *)

Lemma blank_no_c (ws : list Z) : blank ws -> ~ In 0x63 ws.
Proof.
  intros H Hin.
  pose proof (proj1 (List.Forall_forall _ _) H _ Hin) as Hc.
  vm_compute in Hc. discriminate.
Qed.

(** A console call text starts with [c] and holds no other [c]. *)
Lemma call_text_shape (w : list Z) :
  console_call_text w -> exists t, w = 0x63 :: t /\ ~ In 0x63 t.
Proof.
  intros (ws1 & ws2 & ws3 & m & H1 & H2 & H3 & Hm & ->).
  destruct (method_head m Hm) as (_ & _ & _ & _ & Hnc).
  exists (codes "onsole" ++ ws1 ++ [0x2E] ++ ws2 ++ codes m ++ ws3
          ++ [lparen]).
  split; [reflexivity|].
  rewrite !in_app_iff.
  intros [H|[H|[H|[H|[H|[H|H]]]]]].
  - cbn in H. lia.
  - exact (blank_no_c _ H1 H).
  - cbn in H. lia.
  - exact (blank_no_c _ H2 H).
  - exact (Hnc H).
  - exact (blank_no_c _ H3 H).
  - cbn in H. unfold lparen in H. lia.
Qed.

Lemma console_match_head (l : list Z) (n : nat) :
  console_match l = Some n -> l !! 0%nat = Some 0x63 /\ (1 <= n)%nat.
Proof.
  intros H. apply console_match_spec in H as (w & rest & -> & Hw & ->).
  apply call_text_shape in Hw as (t & -> & _). cbn. split; [reflexivity|lia].
Qed.

(** No match starts inside another match. *)
Lemma no_match_inside (l : list Z) (n k : nat) :
  console_match l = Some n -> (0 < k < n)%nat ->
  console_match (drop k l) = None.
Proof.
  intros H Hk. destruct (console_match (drop k l)) as [n'|] eqn:E;
    [|reflexivity].
  exfalso. apply console_match_head in E as [E _].
  rewrite lookup_drop in E.
  apply console_match_spec in H as (w & rest & -> & Hw & ->).
  apply call_text_shape in Hw as (t & -> & Hnc).
  cbn [length] in Hk. rewrite lookup_app_l in E by (cbn [length]; lia).
  destruct k as [|k]; [lia|]. replace (S k + 0)%nat with (S k) in E by lia.
  cbn in E. apply Hnc, list_elem_of_In.
  apply list_elem_of_lookup. eauto.
Qed.

Lemma finditer_from_sound (l : list Z) :
  forall skip p s e,
    In (s, e) (finditer_from skip p l) ->
    exists k n, s = (p + k)%nat /\ e = (s + n)%nat /\ (skip <= k)%nat
                /\ console_match (drop k l) = Some n.
Proof.
  induction l as [|c t IH]; cbn [finditer_from]; intros skip p s e H;
    [contradiction|].
  destruct skip as [|sk].
  - destruct (console_match (c :: t)) as [n|] eqn:E.
    + destruct H as [H|H].
      * injection H as <- <-. exists 0%nat, n. cbn [drop]. repeat split; auto.
      * apply IH in H as (k & n' & -> & -> & _ & Hm).
        exists (S k), n'. cbn [drop]. repeat split; auto; lia.
    + apply IH in H as (k & n' & -> & -> & _ & Hm).
      exists (S k), n'. cbn [drop]. repeat split; auto; lia.
  - apply IH in H as (k & n' & -> & -> & Hsk & Hm).
    exists (S k), n'. cbn [drop]. repeat split; auto; lia.
Qed.

Lemma console_match_nil : console_match [] = None.
Proof. reflexivity. Qed.

Lemma finditer_from_complete (l : list Z) :
  forall skip p k n,
    (forall j, (j < skip)%nat -> console_match (drop j l) = None) ->
    console_match (drop k l) = Some n ->
    In ((p + k)%nat, (p + k + n)%nat) (finditer_from skip p l).
Proof.
  induction l as [|c t IH]; intros skip p k n Hskip Hm.
  - rewrite drop_nil, console_match_nil in Hm. discriminate.
  - cbn [finditer_from]. destruct skip as [|sk].
    + destruct (console_match (c :: t)) as [n0|] eqn:E.
      * destruct k as [|k].
        -- cbn [drop] in Hm. rewrite E in Hm. injection Hm as ->.
           left. f_equal; lia.
        -- right. replace (p + S k)%nat with (S p + k)%nat by lia.
           apply IH; [|exact Hm].
           intros j Hj.
           apply (no_match_inside (c :: t) n0 (S j) E). lia.
      * destruct k as [|k]; [cbn [drop] in Hm; congruence|].
        replace (p + S k)%nat with (S p + k)%nat by lia.
        apply IH; [|exact Hm]. intros j Hj. lia.
    + destruct k as [|k].
      { rewrite (Hskip 0%nat) in Hm by lia. discriminate. }
      replace (p + S k)%nat with (S p + k)%nat by lia.
      apply IH; [|exact Hm].
      intros j Hj. apply (Hskip (S j)). lia.
Qed.

(** X10: [finditer] yields exactly the occurrences of a console call text
    in the line: [(s, e)] is one of its matches if and only if the
    characters of the line from offset [s] up to offset [e] (excluded) are
    such a text. *)
Theorem finditer_iff (line : list Z) (s e : nat) :
  In (s, e) (finditer line) <->
  exists pre w rest,
    line = pre ++ w ++ rest /\ console_call_text w
    /\ s = length pre /\ e = (length pre + length w)%nat.
Proof.
  split.
  - intros H. pose proof (finditer_bounds _ _ _ H) as [Hse He].
    apply finditer_from_sound in H as (k & n & -> & -> & _ & Hm).
    apply console_match_spec in Hm as (w & rest & Hd & Hw & ->).
    exists (take k line), w, rest.
    rewrite <- Hd, take_drop, length_take. cbn.
    repeat split; auto; lia.
  - intros (pre & w & rest & -> & Hw & -> & ->).
    apply (finditer_from_complete _ 0 0 (length pre) (length w)).
    + intros j Hj. lia.
    + rewrite drop_app_length. apply console_match_complete, Hw.
Qed.

Lemma finditer_from_lower (l : list Z) :
  forall skip p s e,
    In (s, e) (finditer_from skip p l) -> (p + skip <= s)%nat.
Proof.
  intros skip p s e H.
  apply finditer_from_sound in H as (k & n & -> & _ & Hk & _). lia.
Qed.

Lemma finditer_from_sorted (l : list Z) :
  forall skip p,
    StronglySorted (fun m1 m2 : nat * nat => (snd m1 <= fst m2)%nat)
      (finditer_from skip p l).
Proof.
  induction l as [|c t IH]; intros skip p; cbn [finditer_from];
    [constructor|].
  destruct skip as [|sk]; [|apply IH].
  destruct (console_match (c :: t)) as [n|] eqn:E; [|apply IH].
  constructor; [apply IH|].
  apply List.Forall_forall. intros [s e] Hin.
  apply finditer_from_lower in Hin. cbn [fst snd].
  apply console_match_head in E. lia.
Qed.

(** X11: the matches of a line are non-empty, lie inside the line, come
    from left to right and do not overlap: each one ends before the next
    one starts. *)
Theorem finditer_disjoint_ordered (line : list Z) :
  StronglySorted (fun m1 m2 : nat * nat => (snd m1 <= fst m2)%nat)
    (finditer line)
  /\ Forall (fun m : nat * nat => (fst m < snd m <= length line)%nat)
       (finditer line).
Proof.
  split; [apply finditer_from_sorted|].
  apply List.Forall_forall. intros [s e] H. cbn [fst snd].
  pose proof (finditer_bounds _ _ _ H) as [_ He].
  apply finditer_from_sound in H as (k & n & -> & -> & _ & Hm).
  apply console_match_head in Hm. lia.
Qed.

(** ** More on the bracket-counting loop *)

Lemma pos_scan_loop_le (rest : list Z) :
  forall st, (pos (scan_loop rest st) <= pos st + length rest)%nat.
Proof.
  induction rest as [|c rest IH]; cbn [scan_loop length]; intros st; [lia|].
  destruct (0 <? paren_count st); [|lia].
  specialize (IH (scan_body c st)). rewrite pos_scan_body in IH. lia.
Qed.

(** The counter was positive before every character the loop has read. *)
Lemma scan_loop_reached_open (rest : list Z) :
  forall st n,
    (pos st + n <= pos (scan_loop rest st))%nat ->
    forall m, (m < n)%nat ->
              0 < paren_count (scan_prefix (take m rest) st).
Proof.
  induction rest as [|c rest IH]; cbn [scan_loop]; intros st n Hn m Hm;
    [lia|].
  destruct (0 <? paren_count st) eqn:E; [|lia].
  destruct m as [|m]; [cbn; lia|].
  cbn [take scan_prefix fold_left].
  apply (IH (scan_body c st) (n - 1)%nat); [|lia].
  rewrite pos_scan_body. lia.
Qed.

Lemma scan_body_count (c : Z) (st : scan_state) :
  paren_count st - 1 <= paren_count (scan_body c st) <= paren_count st + 1.
Proof.
  destruct st as [pc p ins sc esc]. unfold scan_body.
  repeat case_match; cbn; lia.
Qed.

Lemma scan_loop_count_nonneg (rest : list Z) :
  forall st, 0 <= paren_count st -> 0 <= paren_count (scan_loop rest st).
Proof.
  induction rest as [|c rest IH]; cbn [scan_loop]; intros st H; [exact H|].
  destruct (0 <? paren_count st) eqn:E; [|exact H].
  apply IH. pose proof (scan_body_count c st). lia.
Qed.

(** X12: an offset of a line is suppressed exactly when it lies on the line
    at or after the start of a match and the nesting counter of that match
    is positive before every argument character in front of the offset. *)
Theorem suppressed_iff (line : list Z) (col : nat) :
  is_in_console_log line col = true <->
  exists s e,
    In (s, e) (finditer line)
    /\ (s <= col <= length line)%nat
    /\ (forall m : nat,
          (m < col - e)%nat ->
          0 < paren_count (scan_prefix (take m (drop e line))
                             (scan_init e))).
Proof.
  unfold is_in_console_log. split.
  - intros H. apply in_some_call_inv in H as (s & e & Hin & Hs & Hc).
    exists s, e. split; [exact Hin|].
    destruct (finditer_bounds _ _ _ Hin) as [Hse He].
    unfold scan_call in Hc.
    pose proof (pos_scan_loop_le (drop e line) (scan_init e)) as Hle.
    rewrite length_drop in Hle. cbn [pos scan_init] in Hle.
    split; [lia|].
    intros m Hm.
    apply (scan_loop_reached_open (drop e line) (scan_init e) (col - e));
      [cbn [pos scan_init]; lia|exact Hm].
  - intros (s & e & Hin & Hcol & Hopen).
    destruct (finditer_bounds _ _ _ Hin) as [Hse He].
    apply (in_some_call_true _ _ _ s e Hin); [lia|].
    unfold scan_call.
    pose proof (scan_loop_reaches (drop e line) (scan_init e) (col - e)) as Hr.
    rewrite length_drop in Hr. cbn [pos scan_init] in Hr.
    specialize (Hr ltac:(lia) Hopen). lia.
Qed.

(** X13: for each match, the loop stops inside the line at or after the
    end of the match, the counter never goes below zero, and the loop stops
    either with the counter at zero or at the end of the line. *)
Theorem scan_call_invariants (line : list Z) (s e : nat) :
  In (s, e) (finditer line) ->
  0 <= paren_count (scan_call line e)
  /\ (e <= pos (scan_call line e) <= length line)%nat
  /\ (paren_count (scan_call line e) = 0
      \/ pos (scan_call line e) = length line).
Proof.
  intros Hin. destruct (finditer_bounds _ _ _ Hin) as [Hse He].
  unfold scan_call.
  pose proof (scan_loop_count_nonneg (drop e line) (scan_init e)) as Hc.
  pose proof (pos_scan_loop_le (drop e line) (scan_init e)) as Hle.
  pose proof (pos_scan_loop_ge (drop e line) (scan_init e)) as Hge.
  rewrite length_drop in Hle. cbn [pos paren_count scan_init] in *.
  specialize (Hc ltac:(lia)).
  split; [exact Hc|]. split; [lia|].
  destruct (Z_lt_le_dec 0 (paren_count (scan_loop (drop e line) (scan_init e))))
    as [Hopen|Hclosed]; [right|left; lia].
  rewrite (scan_loop_unterminated _ _ Hopen), length_drop.
  cbn [pos scan_init]. lia.
Qed.

Lemma scan_call_invariants_witness :
  In (0, 12)%nat (finditer line_paren_in_string)
  /\ (12 <= pos (scan_call line_paren_in_string 12)
      <= length line_paren_in_string)%nat.
Proof.
  assert (Hin : In (0, 12)%nat (finditer line_paren_in_string))
    by (vm_compute; left; reflexivity).
  split; [exact Hin|].
  exact (proj1 (proj2 (scan_call_invariants line_paren_in_string 0 12 Hin))).
Defined.

Lemma scan_body_plain (c : Z) (st : scan_state) :
  in_string st = false -> escaped st = false ->
  code_in c quote_chars = false -> c <> backslash ->
  in_string (scan_body c st) = false /\ escaped (scan_body c st) = false
  /\ paren_count (scan_body c st)
     = paren_count st
       + (if c =? lparen then 1 else if c =? rparen then -1 else 0).
Proof.
  destruct st as [pc p ins sc esc]. unfold scan_body.
  cbn [in_string escaped paren_count]. intros -> -> Hq Hb.
  apply Z.eqb_neq in Hb. rewrite Hb, Hq. cbn [negb andb].
  destruct (c =? lparen); [cbn; auto|].
  destruct (c =? rparen); cbn; auto with zarith.
Qed.

(** X14: over an argument text without quote characters and backslashes
    the counter is 1, plus the number of [(] read, minus the number of [)]
    read, and the loop is never inside a quoted run. *)
Theorem plain_text_counter (start : nat) (cs : list Z) :
  plain_text cs ->
  paren_count (scan_prefix cs (scan_init start))
  = 1 + Z.of_nat (count_occ Z.eq_dec cs lparen)
    - Z.of_nat (count_occ Z.eq_dec cs rparen)
  /\ in_string (scan_prefix cs (scan_init start)) = false
  /\ escaped (scan_prefix cs (scan_init start)) = false.
Proof.
  intros Hplain.
  assert (Hgen : forall st,
    in_string st = false -> escaped st = false ->
    paren_count (scan_prefix cs st)
    = paren_count st + Z.of_nat (count_occ Z.eq_dec cs lparen)
      - Z.of_nat (count_occ Z.eq_dec cs rparen)
    /\ in_string (scan_prefix cs st) = false
    /\ escaped (scan_prefix cs st) = false).
  { induction Hplain as [|c cs [Hq Hb] _ IH]; intros st Hi He.
    - cbn. split; [lia|auto].
    - destruct (scan_body_plain c st Hi He Hq Hb) as (Hi' & He' & Hc).
      cbn [scan_prefix fold_left].
      destruct (IH (scan_body c st) Hi' He') as (IHc & IHi & IHe).
      unfold scan_prefix in *. rewrite IHc, Hc.
      split; [|auto]. unfold lparen, rparen in *.
      cbn [count_occ].
      destruct (Z.eq_dec c 40) as [E40|H40];
        destruct (Z.eq_dec c 41) as [E41|H41]; try lia.
      + subst c. cbn. lia.
      + subst c. cbn. lia.
      + apply Z.eqb_neq in H40, H41. rewrite H40, H41. lia. }
  apply Hgen; reflexivity.
Qed.

Lemma plain_text_counter_witness :
  plain_text (codes "f(a, g(b))")
  /\ paren_count (scan_prefix (codes "f(a, g(b))") (scan_init 12)) = 1.
Proof.
  assert (H : plain_text (codes "f(a, g(b))")).
  { repeat (constructor; [split; [reflexivity|discriminate]|]). constructor. }
  split; [exact H|].
  rewrite (proj1 (plain_text_counter 12 (codes "f(a, g(b))") H)).
  reflexivity.
Defined.

(** X15: a backslash that is not itself escaped, and the character after
    it, change nothing but the position: whatever that character is (a
    quote, a parenthesis, another backslash), the counter and the quoted
    run are as before. *)
Theorem escape_pair_is_skipped (st : scan_state) (c : Z) :
  escaped st = false ->
  scan_body c (scan_body backslash st)
  = mk_scan (paren_count st) (S (S (pos st))) (in_string st)
      (string_char st) false.
Proof.
  destruct st as [pc p ins sc esc]. cbn [escaped]. intros ->. reflexivity.
Qed.

Lemma escape_pair_is_skipped_witness :
  scan_body rparen (scan_body backslash (scan_init 12))
  = mk_scan 1 14 false None false.
Proof.
  exact (escape_pair_is_skipped (scan_init 12) rparen eq_refl).
Defined.

(** ** More on the directory walker *)

Lemma valid_listing_Permutation (l l' : list entry) :
  Permutation l l' -> valid_listing l -> valid_listing l'.
Proof.
  intros Hp [Hnd Hall]. split.
  - rewrite <- (Permutation_map rel_parts Hp). exact Hnd.
  - apply List.Forall_forall. intros e He.
    apply (proj1 (List.Forall_forall _ _) Hall).
    apply (Permutation_in e (Permutation_sym Hp)), He.
Qed.

(** X16: the result of a walk does not depend on the order in which the
    entries are enumerated. *)
Theorem scan_directory_order_irrelevant
    (root : list string) (listing listing' : list entry) :
  valid_listing listing -> Permutation listing listing' ->
  scan_directory root listing = scan_directory root listing'.
Proof.
  intros Hv Hp.
  pose proof (valid_listing_Permutation _ _ Hp Hv) as Hv'.
  assert (Hmap : fst (scan_directory root listing)
                 = fst (scan_directory root listing')).
  { apply map_eq. intros k. apply option_eq. intros v.
    rewrite (scan_directory_lookup root listing Hv),
            (scan_directory_lookup root listing' Hv').
    split; intros (e & Hin & H); exists e; (split; [|exact H]).
    - apply (Permutation_in e Hp), Hin.
    - apply (Permutation_in e (Permutation_sym Hp)), Hin. }
  pose proof (scan_directory_total root listing Hv) as Ht.
  pose proof (scan_directory_total root listing' Hv') as Ht'.
  rewrite Hmap, <- Ht' in Ht.
  destruct (scan_directory root listing), (scan_directory root listing').
  cbn [fst snd] in *. congruence.
Qed.

Lemma scan_directory_order_irrelevant_witness :
  valid_listing small_tree /\ Permutation small_tree (rev small_tree)
  /\ scan_directory root_proj small_tree
     = scan_directory root_proj (rev small_tree).
Proof.
  assert (Hp : Permutation small_tree (rev small_tree))
    by apply Permutation_rev.
  split; [exact small_tree_valid|]. split; [exact Hp|].
  exact (scan_directory_order_irrelevant root_proj small_tree
           (rev small_tree) small_tree_valid Hp).
Defined.

(** The loop started from any accumulator: the entries recorded by the
    walk override what the mapping already holds, the total is added. *)
Lemma fold_scan_entry_acc (root : list string) (l : list entry) :
  forall (m : gmap string (list finding)) (t : nat),
    fold_left (scan_entry root) l (m, t)
    = (fst (scan_directory root l) ∪ m,
       (t + snd (scan_directory root l))%nat).
Proof.
  induction l as [|e l IH] using rev_ind; intros m t.
  - cbn. rewrite (left_id_L ∅ (∪)). f_equal. lia.
  - rewrite scan_directory_snoc, fold_left_app, IH. cbn [fold_left].
    destruct (scan_entry_cases root (scan_directory root l) e)
      as [(Hel & Hfs & ->)|[Hskip ->]].
    + destruct (scan_entry_cases root
                  (fst (scan_directory root l) ∪ m,
                   (t + snd (scan_directory root l))%nat) e)
        as [(_ & _ & ->)|[[Hno|Hno] _]]; [|contradiction..].
      cbn [fst snd]. rewrite insert_union_l. f_equal. lia.
    + rewrite (scan_entry_skip root e Hskip). reflexivity.
Qed.

(** X17: walking two enumerations one after the other: the totals add up,
    and the mapping is the union of the two mappings, an entry of the second
    walk replacing an entry of the first under the same relative path. *)
Theorem scan_directory_app (root : list string) (l1 l2 : list entry) :
  scan_directory root (l1 ++ l2)
  = (fst (scan_directory root l2) ∪ fst (scan_directory root l1),
     (snd (scan_directory root l1) + snd (scan_directory root l2))%nat).
Proof.
  unfold scan_directory at 1. rewrite fold_left_app.
  fold (scan_directory root l1).
  destruct (scan_directory root l1) as [m t].
  apply fold_scan_entry_acc.
Qed.

(** X18: the returned mapping has at most as many keys as the returned
    total, and it is empty exactly when the total is 0 (the case in which
    [main] prints that no emoji was found). *)
Theorem files_and_total (root : list string) (listing : list entry) :
  (size (fst (scan_directory root listing))
   <= snd (scan_directory root listing))%nat
  /\ (snd (scan_directory root listing) = 0%nat
      <-> fst (scan_directory root listing) = ∅).
Proof.
  induction listing as [|e l [IHs IHz]] using rev_ind.
  - cbn. rewrite map_size_empty. split; [lia|tauto].
  - rewrite scan_directory_snoc.
    destruct (scan_entry_cases root (scan_directory root l) e)
      as [(_ & Hfs & ->)|[_ ->]]; [|tauto].
    cbn [fst snd].
    destruct (find_emojis_in_file (file_read e)) as [|f fs];
      [contradiction|].
    cbn [length]. split.
    + rewrite map_size_insert.
      destruct (fst (scan_directory root l) !! relative_path e); cbn; lia.
    + split; [lia|]. intros H. exfalso. exact (insert_non_empty _ _ _ H).
Qed.

(** ** Selected file names *)

Lemma string_length_append (a b : string) :
  String.length (String.append a b) = (String.length a + String.length b)%nat.
Proof.
  induction a as [|c a IH]; simpl; [reflexivity|].
  f_equal. exact IH.
Qed.

Lemma substring_all (s : string) : substring 0 (String.length s) s = s.
Proof.
  induction s as [|c s IH]; simpl; [reflexivity|].
  f_equal. exact IH.
Qed.

Lemma substring_append (a b : string) :
  substring (String.length a) (String.length b) (String.append a b) = b.
Proof.
  induction a as [|c a IH]; simpl; [apply substring_all|exact IH].
Qed.

(** The last dot of a name splits it into a stem and a dot-free tail. *)
Lemma rfind_dot_split (name : string) (i : nat) :
  rfind_dot name = Some i ->
  exists stem tail,
    name = String.append stem (String "." tail)
    /\ String.length stem = i /\ rfind_dot tail = None.
Proof.
  revert i. induction name as [|c name IH]; cbn [rfind_dot]; intros i H;
    [discriminate|].
  destruct (rfind_dot name) as [j|] eqn:E.
  - injection H as <-. destruct (IH j eq_refl) as (stem & tail & -> & <- & Ht).
    exists (String c stem), tail. auto.
  - destruct (Ascii.eqb_spec c "."%char) as [->|]; [|discriminate].
    injection H as <-. exists EmptyString, name. auto.
Qed.

Lemma rfind_dot_append (stem ext : string) :
  rfind_dot ext = Some 0%nat ->
  rfind_dot (String.append stem ext) = Some (String.length stem).
Proof.
  intros H.
  induction stem as [|c stem IH]; simpl; [exact H|].
  rewrite IH. reflexivity.
Qed.

Lemma extension_shape (ext : string) :
  In ext extensions ->
  rfind_dot ext = Some 0%nat /\ (2 <= String.length ext)%nat.
Proof.
  unfold extensions. cbn [In].
  intros [<-|[<-|[<-|[<-|[<-|[<-|[<-|[]]]]]]]]; cbn; split;
    (reflexivity || lia).
Qed.

(** X19: a file name passes the extension test exactly when it is a
    non-empty stem followed by one of the seven extensions. A name that is
    only an extension, such as [.json], does not pass. *)
Theorem selected_names (name : string) :
  str_in (suffix_of name) extensions = true <->
  exists stem ext,
    name = String.append stem ext /\ In ext extensions
    /\ stem <> EmptyString.
Proof.
  rewrite str_in_In. unfold suffix_of. split.
  - destruct (rfind_dot name) as [i|] eqn:E;
      [|intros H; apply extension_shape in H as [H _]; discriminate].
    destruct ((0 <? i)%nat && (i <? String.length name - 1)%nat) eqn:Eb;
      [|intros H; apply extension_shape in H as [H _]; discriminate].
    intros Hext.
    destruct (rfind_dot_split name i E) as (stem & tail & -> & <- & _).
    rewrite string_length_append in Hext.
    replace (String.length stem + String.length (String "." tail)
             - String.length stem)%nat
      with (String.length (String "." tail)) in Hext by lia.
    rewrite substring_append in Hext.
    exists stem, (String "." tail). split; [reflexivity|].
    split; [exact Hext|].
    intros ->. cbn in Eb. discriminate.
  - intros (stem & ext & -> & Hext & Hstem).
    destruct (extension_shape ext Hext) as [Hdot Hlen].
    rewrite (rfind_dot_append stem ext Hdot), string_length_append.
    assert (Hs : (0 < String.length stem)%nat)
      by (destruct stem; [contradiction|cbn; lia]).
    destruct (0 <? String.length stem)%nat eqn:E1; [|lia].
    destruct (String.length stem
              <? String.length stem + String.length ext - 1)%nat eqn:E2;
      [|lia].
    cbn [andb].
    replace (String.length stem + String.length ext - String.length stem)%nat
      with (String.length ext) by lia.
    rewrite substring_append. exact Hext.
Qed.

(** ** Emoji code points *)

(** X20: every code point classified as an emoji lies between U+2190 and
    U+1FAFF and is not a blank; so no ASCII character, and none of the
    characters the scanner gives a meaning to (newline, quotes, backslash,
    parentheses, the letters of the pattern), is an emoji. *)
Theorem emoji_code_point_bounds (c : Z) :
  is_emoji c = true ->
  0x2190 <= c <= 0x1FAFF /\ isspace c = false /\ c <> 0x0A
  /\ ~ In c (quote_chars ++ [backslash; lparen; rparen]).
Proof.
  intros H. pose proof (is_emoji_range c H) as Hr.
  split; [exact Hr|]. split; [apply is_emoji_not_space, H|].
  split; [lia|].
  unfold quote_chars, backslash, lparen, rparen. cbn [app In]. lia.
Qed.

Lemma emoji_code_point_bounds_witness :
  is_emoji grinning_face = true /\ isspace grinning_face = false.
Proof.
  assert (H : is_emoji grinning_face = true) by reflexivity.
  split; [exact H|].
  exact (proj1 (proj2 (emoji_code_point_bounds grinning_face H))).
Defined.
